(** * The MAST name resolver of the PS1 DR2 TAP notebook

    A shallow embedding of the two helper functions of
    [notebooks/MAST/PanSTARRS/PS1_DR2_TAP/PS1_DR2_TAP.ipynb], [mastQuery] and
    [resolve], together with the parts of the Python runtime they call
    ([json.dumps], [json.loads], [urllib.parse.quote], [bytes.decode],
    subscripting, [http.client.HTTPSConnection]).

    Python values are a tree of [value]s; strings are lists of Unicode code
    points; exceptions are values of [exn] carried by [Result]; the effects
    of the program (objects it allocates, connections, calls made on them)
    are threaded through a [World].

    Of the limits of the interpreter, the one on the digits of a conversion
    between [int] and [str] is modelled; its recursion limit and its memory
    are not. *)

From Stdlib Require Import ZArith NArith Ascii String List Bool Lia.
From Stdlib Require Import DecimalString Floats.SpecFloat.
From stdpp Require Import base option list gmap.

Set Default Proof Using "Type".
Local Set Warnings "-register-all".

(** ** Strings *)

(** A Python [str] is a sequence of code points. *)
Definition codepoint : Type := N.
Definition str : Type := list codepoint.

(** A string literal of the source, all of whose characters are ASCII. *)
Definition lit (s : string) : str := N_of_ascii <$> list_ascii_of_string s.

(** The same for a literal that holds quotation marks: the apostrophes of
    [s] stand for the character U+0022. *)
Definition quot : codepoint := 34%N.
Definition apos : codepoint := 39%N.
Definition qlit (s : string) : str :=
  (fun c => if decide (c = apos) then quot else c) <$> lit s.

Definition ch (a : ascii) : codepoint := N_of_ascii a.

(** [str.startswith], returning what follows the prefix. *)
Fixpoint strip_prefix (p s : str) : option str :=
  match p, s with
  | [], _ => Some s
  | a :: p', b :: s' => if decide (a = b) then strip_prefix p' s' else None
  | _ :: _, [] => None
  end.

(** [pat in s] on strings. *)
Fixpoint occurs (pat s : str) : bool :=
  match strip_prefix pat s with
  | Some _ => true
  | None => match s with
            | [] => false
            | _ :: s' => occurs pat s'
            end
  end.

(** [sep.join(parts)]. *)
Fixpoint join (sep : str) (parts : list str) : str :=
  match parts with
  | [] => []
  | [p] => p
  | p :: ps => p ++ sep ++ join sep ps
  end.

(** The decimal digits of an integer, after its sign. *)
Definition decimal (z : Z) : str := lit (NilZero.string_of_int (Z.to_int z)).

(** ** Values and exceptions *)

(** The Python values that [json.loads] builds and [json.dumps] accepts.  A
    [dict] keeps its keys in insertion order, which [json.dumps] follows. *)
Inductive value : Type :=
| VNone
| VBool (b : bool)
| VInt (z : Z)
| VFloat (f : spec_float)
| VStr (s : str)
| VList (l : list value)
| VDict (d : list (str * value)).

(** The exception classes that can reach [resolve].  The messages of the
    exceptions raised by the runtime are left out; [KeyError] keeps the key
    and [ValueError] the message the program gives it.  In Python
    [JSONDecodeError], [UnicodeDecodeError] and [UnicodeEncodeError] are
    subclasses of [ValueError]; no handler of the program catches
    [ValueError], so they are kept apart here.  [DigitLimitError] is the
    plain [ValueError] the runtime raises when a conversion between [int]
    and [str] exceeds the limit on its digits ([Exceeds the limit ... for
    integer string conversion]), kept apart in the same way.
    [ConnectionError] is the subclass of [OSError] that [http.client]
    tells from the others. *)
Inductive exn : Type :=
| IndexError
| KeyError (key : value)
| TypeError
| ValueError (msg : str)
| DigitLimitError
| JSONDecodeError
| UnicodeDecodeError
| UnicodeEncodeError
| RecursionError
| OSError (msg : str)
| ConnectionError (msg : str)
| HTTPException (msg : str).

Inductive Result (A : Type) : Type :=
| Ok (a : A)
| Raise (e : exn).
Arguments Ok {A} a.
Arguments Raise {A} e.

Definition rbind {A B} (r : Result A) (k : A -> Result B) : Result B :=
  match r with
  | Ok a => k a
  | Raise e => Raise e
  end.

Notation "'let!' x := r 'in' k" := (rbind r (fun x => k))
  (at level 10, x pattern, r at level 100, k at level 200).

(** A function that can raise, over the elements of a list, left to
    right. *)
Section mapM.
Variables (A B : Type) (f : A -> Result B).

Fixpoint mapM (l : list A) : Result (list B) :=
  match l with
  | [] => Ok []
  | x :: l' =>
      let! y := f x in
      let! ys := mapM l' in
      Ok (y :: ys)
  end.
End mapM.
Arguments mapM {A B} f l.

(** *** Integers as text *)

(** [sys.get_int_max_str_digits()] limits the digits of a conversion between
    [int] and [str]: [limit] is [0] for no limit (as in every Python before
    3.11) and at least 640 otherwise, 4300 unless it has been set.  Whatever
    the limit, a conversion of 640 digits or fewer is never refused. *)
Definition over_limit (limit : N) (digits : nat) : bool :=
  (640 <? N.of_nat digits)%N && (0 <? limit)%N && (limit <? N.of_nat digits)%N.

(** [str(n)] and [repr(n)] of an [int]: [ValueError] when [n] has more
    digits than the limit allows. *)
Definition str_of_int (limit : N) (z : Z) : Result str :=
  if over_limit limit (length (decimal (Z.abs z))) then Raise DigitLimitError
  else Ok (decimal z).

(** [int(digits)] for a run of decimal digits. *)
Definition int_of_digits (limit : N) (neg : bool) (ds : str) (value : Z) : Result Z :=
  if over_limit limit (length ds) then Raise DigitLimitError
  else Ok (if neg then - value else value)%Z.

(** *** Dictionaries *)

Fixpoint dict_get (d : list (str * value)) (k : str) : option value :=
  match d with
  | [] => None
  | (k', v) :: d' => if decide (k' = k) then Some v else dict_get d' k
  end.

(** [d[k] = v]: an existing key keeps its place, a new one goes last. *)
Fixpoint dict_set (d : list (str * value)) (k : str) (v : value)
  : list (str * value) :=
  match d with
  | [] => [(k, v)]
  | (k', v') :: d' =>
      if decide (k' = k) then (k', v) :: d' else (k', v') :: dict_set d' k v
  end.

(** [dict(pairs)]. *)
Definition dict_of_pairs (pairs : list (str * value)) : list (str * value) :=
  foldl (fun d kv => dict_set d kv.1 kv.2) [] pairs.

(** *** Subscripting: [obj[key]] *)

(** A sequence index, negative ones counting from the end. *)
Definition seq_index {A} (l : list A) (i : Z) : Result A :=
  let n := Z.of_nat (length l) in
  let j := if (i <? 0)%Z then (i + n)%Z else i in
  if ((0 <=? j) && (j <? n))%Z then
    match l !! Z.to_nat j with
    | Some x => Ok x
    | None => Raise IndexError
    end
  else Raise IndexError.

Definition getitem (obj key : value) : Result value :=
  match obj with
  | VDict d =>
      match key with
      | VStr k => match dict_get d k with
                  | Some v => Ok v
                  | None => Raise (KeyError key)
                  end
      | VList _ | VDict _ => Raise TypeError   (* unhashable key *)
      | _ => Raise (KeyError key)              (* every key of [d] is a [str] *)
      end
  | VList l =>
      match key with
      | VInt i => seq_index l i
      | VBool b => seq_index l (if b then 1 else 0)%Z
      | _ => Raise TypeError
      end
  | VStr s =>
      match key with
      | VInt i => let! c := seq_index s i in Ok (VStr [c])
      | VBool b => let! c := seq_index s (if b then 1 else 0)%Z in Ok (VStr [c])
      | _ => Raise TypeError
      end
  | VNone | VBool _ | VInt _ | VFloat _ => Raise TypeError
  end.

(** ** [bytes.decode('utf-8')] and [str.encode('utf-8')] *)

Definition bytes : Type := list Byte.byte.

Definition cont (b : Byte.byte) : option N :=
  let n := Byte.to_N b in
  if ((128 <=? n) && (n <=? 191))%N then Some (n - 128)%N else None.

(** The strict decoder: shortest forms only, no surrogates, nothing above
    U+10FFFF. *)
Fixpoint utf8_decode (bs : bytes) : Result str :=
  match bs with
  | [] => Ok []
  | b0 :: r0 =>
      let n0 := Byte.to_N b0 in
      if (n0 <? 128)%N then
        let! s := utf8_decode r0 in Ok (n0 :: s)
      else if (n0 <? 194)%N then Raise UnicodeDecodeError
      else if (n0 <? 224)%N then
        match r0 with
        | b1 :: r1 =>
            match cont b1 with
            | Some c1 =>
                let! s := utf8_decode r1 in
                Ok (((n0 - 192) * 64 + c1)%N :: s)
            | None => Raise UnicodeDecodeError
            end
        | _ => Raise UnicodeDecodeError
        end
      else if (n0 <? 240)%N then
        match r0 with
        | b1 :: b2 :: r2 =>
            match cont b1, cont b2 with
            | Some c1, Some c2 =>
                let c := (((n0 - 224) * 64 + c1) * 64 + c2)%N in
                if ((c <? 2048) || ((55296 <=? c) && (c <=? 57343)))%N
                then Raise UnicodeDecodeError
                else let! s := utf8_decode r2 in Ok (c :: s)
            | _, _ => Raise UnicodeDecodeError
            end
        | _ => Raise UnicodeDecodeError
        end
      else if (n0 <? 245)%N then
        match r0 with
        | b1 :: b2 :: b3 :: r3 =>
            match cont b1, cont b2, cont b3 with
            | Some c1, Some c2, Some c3 =>
                let c := ((((n0 - 240) * 64 + c1) * 64 + c2) * 64 + c3)%N in
                if ((c <? 65536) || (1114111 <? c))%N
                then Raise UnicodeDecodeError
                else let! s := utf8_decode r3 in Ok (c :: s)
            | _, _, _ => Raise UnicodeDecodeError
            end
        | _ => Raise UnicodeDecodeError
        end
      else Raise UnicodeDecodeError
  end.

Definition byte_of (n : N) : Byte.byte :=
  default Byte.x00 (Byte.of_N (n mod 256)%N).

Definition utf8_encode_char (c : codepoint) : Result bytes :=
  if (c <? 128)%N then Ok [byte_of c]
  else if (c <? 2048)%N then
    Ok [byte_of (192 + c / 64); byte_of (128 + c mod 64)]%N
  else if ((55296 <=? c) && (c <=? 57343))%N then Raise UnicodeEncodeError
  else if (c <? 65536)%N then
    Ok [byte_of (224 + c / 4096); byte_of (128 + (c / 64) mod 64);
        byte_of (128 + c mod 64)]%N
  else if (c <=? 1114111)%N then
    Ok [byte_of (240 + c / 262144); byte_of (128 + (c / 4096) mod 64);
        byte_of (128 + (c / 64) mod 64); byte_of (128 + c mod 64)]%N
  else Raise UnicodeEncodeError.

Fixpoint utf8_encode (s : str) : Result bytes :=
  match s with
  | [] => Ok []
  | c :: s' =>
      let! b := utf8_encode_char c in
      let! bs := utf8_encode s' in
      Ok (b ++ bs)
  end.

(** The bytes of an ASCII literal. *)
Definition blit (s : str) : bytes := byte_of <$> s.

(** ** [urllib.parse.quote] *)

Definition in_range (lo hi : ascii) (n : N) : bool :=
  ((N_of_ascii lo <=? n) && (n <=? N_of_ascii hi))%N.

(** [_ALWAYS_SAFE]: letters, digits and [_.-~]. *)
Definition always_safe (n : N) : bool :=
  in_range "A" "Z" n || in_range "a" "z" n || in_range "0" "9" n
  || bool_decide (n ∈ [ch "_"; ch "."; ch "-"; ch "~"]).

Definition hex_upper (d : N) : codepoint :=
  if (d <? 10)%N then (ch "0" + d)%N else (ch "A" + (d - 10))%N.

(** [quote_from_bytes(bs, safe='/')]. *)
Definition quote_byte (b : Byte.byte) : str :=
  let n := Byte.to_N b in
  if always_safe n || bool_decide (n = ch "/") then [n]
  else [ch "%"; hex_upper (n / 16); hex_upper (n mod 16)].

Definition quote_from_bytes (bs : bytes) : str := concat (quote_byte <$> bs).

(** [quote(string)] with its defaults: [safe='/'], UTF-8, strict errors. *)
Definition quote (s : str) : Result str :=
  let! bs := utf8_encode s in Ok (quote_from_bytes bs).

(** The notebook imports it under this name. *)
Definition urlencode := quote.

(** ** [json.dumps] *)

Definition hex_lower (d : N) : codepoint :=
  if (d <? 10)%N then (ch "0" + d)%N else (ch "a" + (d - 10))%N.

(** ['\\u{0:04x}'.format(n)] *)
Definition escape_u (n : N) : str :=
  [ch "\"; ch "u"; hex_lower ((n / 4096) mod 16); hex_lower ((n / 256) mod 16);
   hex_lower ((n / 16) mod 16); hex_lower (n mod 16)]%N.

(** The replacement [py_encode_basestring_ascii] makes for one character:
    [ESCAPE_DCT], then [\uXXXX] for whatever is outside [' '..'~']. *)
Definition escape_char (c : codepoint) : str :=
  if decide (c = ch "\") then [ch "\"; ch "\"]
  else if decide (c = quot) then [ch "\"; quot]
  else if decide (c = 8%N) then [ch "\"; ch "b"]
  else if decide (c = 12%N) then [ch "\"; ch "f"]
  else if decide (c = 10%N) then [ch "\"; ch "n"]
  else if decide (c = 13%N) then [ch "\"; ch "r"]
  else if decide (c = 9%N) then [ch "\"; ch "t"]
  else if ((32 <=? c) && (c <=? 126))%N then [c]
  else if (c <? 65536)%N then escape_u c
  else
    let n := (c - 65536)%N in
    escape_u (N.lor 55296 (N.land (N.shiftr n 10) 1023))
      ++ escape_u (N.lor 56320 (N.land n 1023)).

Definition encode_basestring_ascii (s : str) : str :=
  quot :: concat (escape_char <$> s) ++ [quot].

(** [floatstr]: the three special values by name, [float.__repr__] for the
    rest.  [frepr] is the runtime's [float.__repr__]. *)
Definition floatstr (frepr : spec_float -> string) (f : spec_float) : str :=
  match f with
  | S754_nan => lit "NaN"
  | S754_infinity false => lit "Infinity"
  | S754_infinity true => lit "-Infinity"
  | _ => lit (frepr f)
  end.

(** [json.dumps(obj)] with its defaults: [ensure_ascii=True],
    [allow_nan=True], separators [', '] and [': '], no indentation.  A
    [value] is a finite tree of serialisable objects, so neither the
    [TypeError] for a foreign object nor the circular-reference check can
    fire; an [int] is written by [int.__repr__], which the digit [limit] of
    the interpreter can refuse. *)
Fixpoint dumps (frepr : spec_float -> string) (limit : N) (o : value) : Result str :=
  match o with
  | VNone => Ok (lit "null")
  | VBool true => Ok (lit "true")
  | VBool false => Ok (lit "false")
  | VInt z => str_of_int limit z
  | VFloat f => Ok (floatstr frepr f)
  | VStr s => Ok (encode_basestring_ascii s)
  | VList [] => Ok (lit "[]")
  | VList l =>
      let! parts := mapM (dumps frepr limit) l in
      Ok (ch "[" :: join (lit ", ") parts ++ [ch "]"])
  | VDict [] => Ok (lit "{}")
  | VDict d =>
      let! parts :=
        mapM (fun kv : str * value =>
                let (k, v) := kv in
                let! text := dumps frepr limit v in
                Ok (encode_basestring_ascii k ++ lit ": " ++ text)) d in
      Ok (ch "{" :: join (lit ", ") parts ++ [ch "}"])
  end.

(** ** [json.loads] *)

(** [float(text)] for the decimal [m * 10^e], correctly rounded to binary64
    (round half to even). *)
Definition prec : Z := 53.
Definition emax : Z := 1024.

Definition float_of_decimal (neg : bool) (m : Z) (e : Z) : spec_float :=
  match m with
  | Z0 => S754_zero neg
  | Zpos p =>
      if (0 <=? e)%Z then
        match (Zpos p * 10 ^ e)%Z with
        | Zpos q => binary_round prec emax neg q 0
        | _ => S754_nan
        end
      else
        let '(q, e', l) := SFdiv_core_binary prec emax (Zpos p) 0 (10 ^ (- e)) 0 in
        binary_round_aux prec emax neg q e' l
  | Zneg _ => S754_nan
  end.

Definition is_ws (c : codepoint) : bool :=
  bool_decide (c ∈ [32; 9; 10; 13]%N).

(** [WHITESPACE.match(s, idx).end()] *)
Fixpoint skip_ws (s : str) : str :=
  match s with
  | c :: s' => if is_ws c then skip_ws s' else s
  | [] => []
  end.

Definition is_digit (c : codepoint) : bool := in_range "0" "9" c.

Fixpoint span_digits (s : str) : str * str :=
  match s with
  | c :: s' =>
      if is_digit c then let (ds, r) := span_digits s' in (c :: ds, r)
      else ([], s)
  | [] => ([], [])
  end.

Definition digits_value (ds : str) : Z :=
  foldl (fun acc c => (acc * 10 + Z.of_N (c - ch "0"))%Z) 0%Z ds.

(** [NUMBER_RE]: an optional minus sign and either a single zero or a
    nonzero digit and more digits; then, optionally, a point and one or more
    digits; then, optionally, [e] or [E], an optional sign and one or more
    digits.  The scanner builds an [int] when there is neither fraction nor
    exponent, with [int(digits)], which the digit limit of the interpreter
    can refuse, and a [float] otherwise. *)
Definition match_integer (s : str) : option (str * str) :=
  match s with
  | c :: s' =>
      if decide (c = ch "0") then Some ([c], s')
      else if is_digit c then let (ds, r) := span_digits s' in Some (c :: ds, r)
      else None
  | [] => None
  end.

Definition match_frac (s : str) : option (str * str) :=
  match s with
  | c :: s' =>
      if decide (c = ch ".") then
        match span_digits s' with
        | ([], _) => None
        | (ds, r) => Some (ds, r)
        end
      else None
  | [] => None
  end.

Definition match_exp (s : str) : option (Z * str) :=
  match s with
  | c :: s' =>
      if bool_decide (c = ch "e") || bool_decide (c = ch "E") then
        let '(neg, s'') :=
          match s' with
          | g :: t => if decide (g = ch "-") then (true, t)
                      else if decide (g = ch "+") then (false, t)
                      else (false, s')
          | [] => (false, s')
          end in
        match span_digits s'' with
        | ([], _) => None
        | (ds, r) => Some (if neg then (- digits_value ds)%Z else digits_value ds, r)
        end
      else None
  | [] => None
  end.

Definition match_number (limit : N) (s : str) : option (Result (value * str)) :=
  let '(neg, s1) :=
    match s with
    | c :: s' => if decide (c = ch "-") then (true, s') else (false, s)
    | [] => (false, s)
    end in
  match match_integer s1 with
  | None => None
  | Some (ip, s2) =>
      let (fp, s3) := match match_frac s2 with
                      | Some (fp, s3) => (Some fp, s3)
                      | None => (None, s2)
                      end in
      let (ep, s4) := match match_exp s3 with
                      | Some (ep, s4) => (Some ep, s4)
                      | None => (None, s3)
                      end in
      match fp, ep with
      | None, None =>
          Some (let! z := int_of_digits limit neg ip (digits_value ip) in
                Ok (VInt z, s4))
      | _, _ =>
          let fd := default [] fp in
          Some (Ok (VFloat (float_of_decimal neg (digits_value (ip ++ fd))
                              (default 0%Z ep - Z.of_nat (length fd))), s4))
      end
  end.

Definition hex_value (c : codepoint) : option N :=
  if in_range "0" "9" c then Some (c - ch "0")%N
  else if in_range "a" "f" c then Some (c - ch "a" + 10)%N
  else if in_range "A" "F" c then Some (c - ch "A" + 10)%N
  else None.

(** [_decode_uXXXX]: exactly four hexadecimal digits. *)
Definition decode_uXXXX (s : str) : Result (N * str) :=
  match s with
  | a :: b :: c :: d :: r =>
      match hex_value a, hex_value b, hex_value c, hex_value d with
      | Some a, Some b, Some c, Some d =>
          Ok ((((a * 16 + b) * 16 + c) * 16 + d)%N, r)
      | _, _, _, _ => Raise JSONDecodeError
      end
  | _ => Raise JSONDecodeError
  end.

(** The [BACKSLASH] table. *)
Definition backslash (c : codepoint) : option codepoint :=
  if decide (c = quot) then Some quot
  else if decide (c = ch "\") then Some (ch "\")
  else if decide (c = ch "/") then Some (ch "/")
  else if decide (c = ch "b") then Some 8%N
  else if decide (c = ch "f") then Some 12%N
  else if decide (c = ch "n") then Some 10%N
  else if decide (c = ch "r") then Some 13%N
  else if decide (c = ch "t") then Some 9%N
  else None.

(** [scanstring(s, end, strict=True)], entered after the opening quotation
    mark; returns the string and what follows its closing mark.  Every round
    consumes a character, so [fuel = length s] never runs out. *)
Fixpoint scanstring (fuel : nat) (s : str) (acc : str) : Result (str * str) :=
  match fuel, s with
  | _, [] => Raise JSONDecodeError
  | O, _ => Raise RecursionError
  | S fuel, c :: s' =>
      if decide (c = quot) then Ok (acc, s')
      else if decide (c = ch "\") then
        match s' with
        | [] => Raise JSONDecodeError
        | esc :: s'' =>
            if decide (esc = ch "u") then
              let! (uni, r) := decode_uXXXX s'' in
              if ((55296 <=? uni) && (uni <=? 56319))%N then
                match strip_prefix [ch "\"; ch "u"] r with
                | Some r' =>
                    let! (uni2, r2) := decode_uXXXX r' in
                    if ((56320 <=? uni2) && (uni2 <=? 57343))%N then
                      scanstring fuel r2
                        (acc ++ [65536 + N.lor (N.shiftl (uni - 55296) 10)
                                               (uni2 - 56320)]%N)
                    else scanstring fuel r (acc ++ [uni])
                | None => scanstring fuel r (acc ++ [uni])
                end
              else scanstring fuel r (acc ++ [uni])
            else
              match backslash esc with
              | Some x => scanstring fuel s'' (acc ++ [x])
              | None => Raise JSONDecodeError
              end
        end
      else if (c <? 32)%N then Raise JSONDecodeError
      else scanstring fuel s' (acc ++ [c])
  end.

(** The scanner: [scan_once], and the loops of [JSONArray] and [JSONObject],
    each entered where the source enters its [while True].  [fuel] bounds
    the rounds of the scanner; [loads] gives enough of it for any text, see
    [loads_total], so the case of no fuel is never met.  (The recursion
    limit of the interpreter itself is not modelled.) *)
Fixpoint scan_once (limit : N) (fuel : nat) (s : str) : Result (value * str) :=
  match fuel with
  | O => Raise RecursionError
  | S fuel =>
      match s with
      | [] => Raise JSONDecodeError
      | c :: s' =>
          if decide (c = quot) then
            let! (k, r) := scanstring (length s') s' [] in Ok (VStr k, r)
          else if decide (c = ch "{") then
            match skip_ws s' with
            | q :: r =>
                if decide (q = ch "}") then Ok (VDict [], r)
                else if decide (q = quot) then JSONObject limit fuel r []
                else Raise JSONDecodeError
            | [] => Raise JSONDecodeError
            end
          else if decide (c = ch "[") then
            match skip_ws s' with
            | q :: r =>
                if decide (q = ch "]") then Ok (VList [], r)
                else JSONArray limit fuel (q :: r) []
            | [] => Raise JSONDecodeError
            end
          else
            match strip_prefix (lit "null") s, strip_prefix (lit "true") s,
                  strip_prefix (lit "false") s with
            | Some r, _, _ => Ok (VNone, r)
            | _, Some r, _ => Ok (VBool true, r)
            | _, _, Some r => Ok (VBool false, r)
            | None, None, None =>
                match match_number limit s with
                | Some vr => vr
                | None =>
                    match strip_prefix (lit "NaN") s,
                          strip_prefix (lit "Infinity") s,
                          strip_prefix (lit "-Infinity") s with
                    | Some r, _, _ => Ok (VFloat S754_nan, r)
                    | _, Some r, _ => Ok (VFloat (S754_infinity false), r)
                    | _, _, Some r => Ok (VFloat (S754_infinity true), r)
                    | None, None, None => Raise JSONDecodeError
                    end
                end
            end
      end
  end
with JSONArray (limit : N) (fuel : nat) (s : str) (values : list value)
  : Result (value * str) :=
  match fuel with
  | O => Raise RecursionError
  | S fuel =>
      let! (v, r) := scan_once limit fuel s in
      let values := values ++ [v] in
      match skip_ws r with
      | c :: r' =>
          if decide (c = ch "]") then Ok (VList values, r')
          else if decide (c = ch ",") then JSONArray limit fuel (skip_ws r') values
          else Raise JSONDecodeError
      | [] => Raise JSONDecodeError
      end
  end
with JSONObject (limit : N) (fuel : nat) (s : str) (pairs : list (str * value))
  : Result (value * str) :=
  match fuel with
  | O => Raise RecursionError
  | S fuel =>
      let! (key, r) := scanstring (length s) s [] in
      match skip_ws r with
      | c :: r1 =>
          if decide (c = ch ":") then
            let! (v, r2) := scan_once limit fuel (skip_ws r1) in
            let pairs := pairs ++ [(key, v)] in
            match skip_ws r2 with
            | d :: r3 =>
                if decide (d = ch "}") then Ok (VDict (dict_of_pairs pairs), r3)
                else if decide (d = ch ",") then
                  match skip_ws r3 with
                  | q :: r4 =>
                      if decide (q = quot) then JSONObject limit fuel r4 pairs
                      else Raise JSONDecodeError
                  | [] => Raise JSONDecodeError
                  end
                else Raise JSONDecodeError
            | [] => Raise JSONDecodeError
            end
          else Raise JSONDecodeError
      | [] => Raise JSONDecodeError
      end
  end.

(** [json.loads(s)] for a [str]: no byte-order mark, one value, and nothing
    but whitespace after it.  [limit] is the digit limit of the
    interpreter. *)
Definition loads (limit : N) (s : str) : Result value :=
  match strip_prefix [65279%N] s with
  | Some _ => Raise JSONDecodeError
  | None =>
      let! (obj, r) := scan_once limit (2 * length s + 2) (skip_ws s) in
      match skip_ws r with
      | [] => Ok obj
      | _ :: _ => Raise JSONDecodeError
      end
  end.

(** ** The world: objects, connections and the network *)

(** Where an [HTTPSConnection] points: TLS, the host, and the default port
    of the class. *)
Record Endpoint : Type := {
  ep_secure : bool;
  ep_host : str;
  ep_port : Z;
}.

(** The arguments of [conn.request(method, url, body, headers)]. *)
Record Request : Type := {
  rq_method : str;
  rq_url : str;
  rq_body : str;
  rq_headers : list (str * str);
}.

(** What the remote end and the transport make of a request.  Each stage of
    the exchange can fail with the exception the library raises there. *)
Inductive Body : Type :=
| BodyBytes (bs : bytes)        (* [resp.read()] returns these bytes *)
| ReadFails (e : exn).          (* [resp.read()] raises *)

(** A response carries what [http.client] makes of its status line and
    headers, [will_close]: the response ends the connection, unless it is
    persistent (HTTP/1.1 without [Connection: close], or HTTP/1.0 with
    keep-alive) and its length is known (a [Content-Length], or chunked
    encoding). *)
Inductive Reply : Type :=
| ConnectFails (e : exn)        (* [conn.request] raises, no socket was opened *)
| SendFails (e : exn)           (* [conn.request] raises on the open socket *)
| NoResponse (e : exn)          (* [conn.getresponse] raises *)
| Response (will_close : bool) (head : list (str * str)) (body : Body).

(** The surroundings of a run: the interpreter ([sys.version_info[:3]],
    whose three numbers are below 256 each, [sys.get_int_max_str_digits()],
    [float.__repr__]) and the network, a fixed function from requests to
    replies. *)
Record Env : Type := {
  version_info : Byte.byte * Byte.byte * Byte.byte;
  int_max_str_digits : N;
  float_repr : spec_float -> string;
  network : Endpoint -> Request -> Reply;
}.

Definition int_of_byte (b : Byte.byte) : Z := Z.of_N (Byte.to_N b).

(** A connection object: its endpoint, whether it holds a socket (the
    socket is opened by a [request] and held until the connection is closed,
    by a call of [close] or by [getresponse] itself), and the reply waiting
    to be read. *)
Record Conn : Type := {
  conn_endpoint : Endpoint;
  conn_open : bool;
  conn_pending : option Reply;
}.

(** The calls made on connections, oldest first. *)
Inductive Event : Type :=
| EvRequest (c : nat) (rq : Request)
| EvGetResponse (c : nat)
| EvRead (c : nat)
| EvClose (c : nat).

(** The mutable state of the process: the objects allocated so far, the
    connection objects created so far, and the calls made on them.  An object
    or a connection is named by its position.  An object holds its parts by
    value (the program shares no part between two objects), and nothing is
    ever collected. *)
Record World : Type := {
  heap : list value;
  conns : list Conn;
  trace : list Event;
}.

Definition M (A : Type) : Type := World -> Result A * World.

Definition ret {A} (a : A) : M A := fun w => (Ok a, w).
Definition raise {A} (e : exn) : M A := fun w => (Raise e, w).
Definition lift {A} (r : Result A) : M A := fun w => (r, w).

Definition bind {A B} (m : M A) (k : A -> M B) : M B :=
  fun w => match m w with
           | (Ok a, w') => k a w'
           | (Raise e, w') => (Raise e, w')
           end.

Notation "x <- m ;; k" := (bind m (fun x => k))
  (at level 100, m at next level, right associativity).
Notation "m ;;; k" := (bind m (fun _ => k))
  (at level 100, right associativity).

(** [try: body except IndexError: handler] *)
Definition try_except_IndexError {A} (body handler : M A) : M A :=
  fun w => match body w with
           | (Raise IndexError, w') => handler w'
           | r => r
           end.

Definition log (ev : Event) : M unit :=
  fun w => (Ok tt, {| heap := heap w; conns := conns w; trace := trace w ++ [ev] |}).

(** A dictionary display: a new object. *)
Definition new_object (v : value) : M nat :=
  fun w => (Ok (length (heap w)),
            {| heap := heap w ++ [v]; conns := conns w; trace := trace w |}).

(** The object a name is bound to.  A name is always bound in Python; a
    location outside the heap stands for [None]. *)
Definition object_at (w : World) (l : nat) : value := default VNone (heap w !! l).
Definition deref (l : nat) : M value := fun w => (Ok (object_at w l), w).

Definition set_conn (c : nat) (k : Conn) : M unit :=
  fun w => (Ok tt, {| heap := heap w; conns := <[c := k]> (conns w); trace := trace w |}).

(** [http.client.HTTPSConnection(host)]: a new connection object; no socket
    is opened yet. *)
Definition HTTPSConnection (host : str) : M nat :=
  fun w =>
    (Ok (length (conns w)),
     {| heap := heap w;
        conns := conns w ++ [{| conn_endpoint := {| ep_secure := true; ep_host := host; ep_port := 443 |};
                                conn_open := false; conn_pending := None |}];
        trace := trace w |}).

(** The connection object behind a name.  The program only uses the name
    it has just bound, so the second case is never met. *)
Definition get_conn (c : nat) : M Conn :=
  fun w => match conns w !! c with
           | Some k => (Ok k, w)
           | None => (Raise TypeError, w)
           end.

(** [conn.request(method, url, body, headers)]: connects if there is no
    socket, then sends. *)
Definition conn_request (env : Env) (c : nat) (method url body : str)
    (headers : list (str * str)) : M unit :=
  k <- get_conn c ;;
  let rq := {| rq_method := method; rq_url := url; rq_body := body;
               rq_headers := headers |} in
  log (EvRequest c rq) ;;;
  match network env (conn_endpoint k) rq with
  | ConnectFails e => raise e
  | SendFails e =>
      set_conn c {| conn_endpoint := conn_endpoint k; conn_open := true;
                    conn_pending := None |} ;;;
      raise e
  | reply =>
      set_conn c {| conn_endpoint := conn_endpoint k; conn_open := true;
                    conn_pending := Some reply |}
  end.

Definition is_ConnectionError (e : exn) : bool :=
  match e with
  | ConnectionError _ => true
  | _ => false
  end.

(** [conn.getresponse()]: the response object, its headers and body to be
    read.  When the response ends the connection, [getresponse] closes the
    connection object before it returns, and hands the socket over to the
    response; the connection object is closed as well when reading the
    status line and the headers raises a [ConnectionError]. *)
Definition conn_getresponse (c : nat) : M (list (str * str) * Body) :=
  k <- get_conn c ;;
  log (EvGetResponse c) ;;;
  match conn_pending k with
  | Some (Response will_close head body) =>
      set_conn c {| conn_endpoint := conn_endpoint k;
                    conn_open := if will_close then false else conn_open k;
                    conn_pending := None |} ;;;
      ret (head, body)
  | Some (NoResponse e) =>
      (if is_ConnectionError e
       then set_conn c {| conn_endpoint := conn_endpoint k; conn_open := false;
                          conn_pending := None |}
       else ret tt) ;;;
      raise e
  | _ => raise (HTTPException (lit "ResponseNotReady"))
  end.

Definition resp_getheaders (resp : list (str * str) * Body) : M (list (str * str)) :=
  ret resp.1.

Definition resp_read (c : nat) (resp : list (str * str) * Body) : M bytes :=
  log (EvRead c) ;;;
  match resp.2 with
  | BodyBytes bs => ret bs
  | ReadFails e => raise e
  end.

(** [conn.close()] *)
Definition conn_close (c : nat) : M unit :=
  k <- get_conn c ;;
  log (EvClose c) ;;;
  set_conn c {| conn_endpoint := conn_endpoint k; conn_open := false;
                conn_pending := None |}.

(** ** The program *)

Definition mastQuery (env : Env) (request : nat)
  : M (list (str * str) * str) :=
  let server := lit "mast.stsci.edu" in
  (* Grab Python Version *)
  version <-
    lift (let '(major, minor, micro) := version_info env in
          let! parts := mapM (str_of_int (int_max_str_digits env))
                          (int_of_byte <$> [major; minor; micro]) in
          Ok (join (lit ".") parts)) ;;
  (* Create Http Header Variables *)
  let headers :=
    [(lit "Content-type", lit "application/x-www-form-urlencoded");
     (lit "Accept", lit "text/plain");
     (lit "User-agent", lit "python-requests/" ++ version)] in
  (* Encoding the request as a json string *)
  o <- deref request ;;
  requestString <- lift (dumps (float_repr env) (int_max_str_digits env) o) ;;
  requestString <- lift (urlencode requestString) ;;
  (* opening the https connection *)
  conn <- HTTPSConnection server ;;
  (* Making the query *)
  conn_request env conn (lit "POST") (lit "/api/v0/invoke")
    (lit "request=" ++ requestString) headers ;;;
  (* Getting the response *)
  resp <- conn_getresponse conn ;;
  head <- resp_getheaders resp ;;
  raw <- resp_read conn resp ;;
  content <- lift (utf8_decode raw) ;;
  (* Close the https connection *)
  conn_close conn ;;;
  ret (head, content).

Definition resolve (env : Env) (name : str) : M (value * value) :=
  resolverRequest <-
    new_object
      (VDict [(lit "service", VStr (lit "Mast.Name.Lookup"));
              (lit "params", VDict [(lit "input", VStr name);
                                    (lit "format", VStr (lit "json"))])]) ;;
  r <- mastQuery env resolverRequest ;;
  let '(headers, resolvedObjectString) := r in
  resolvedObject <- lift (loads (int_max_str_digits env) resolvedObjectString) ;;
  (* The resolver returns a variety of information about the resolved object,
     however for our purposes all we need are the RA and Dec *)
  bound <-
    try_except_IndexError
      (objRa <- lift (let! a := getitem resolvedObject (VStr (lit "resolvedCoordinate")) in
                      let! b := getitem a (VInt 0) in
                      getitem b (VStr (lit "ra"))) ;;
       objDec <- lift (let! a := getitem resolvedObject (VStr (lit "resolvedCoordinate")) in
                       let! b := getitem a (VInt 0) in
                       getitem b (VStr (lit "decl"))) ;;
       ret (objRa, objDec))
      (raise (ValueError (lit "Unknown object '" ++ name ++ lit "'"))) ;;
  let '(objRa, objDec) := bound in
  ret (objRa, objDec).

(** * The vocabulary of the properties *)

(** ** What the program sends *)

(** The endpoint, the headers and the request of [mastQuery], as the source
    spells them. *)
Definition mast_endpoint : Endpoint :=
  {| ep_secure := true; ep_host := lit "mast.stsci.edu"; ep_port := 443 |}.

Definition version (env : Env) : str :=
  let '(major, minor, micro) := version_info env in
  join (lit ".") (decimal <$> (int_of_byte <$> [major; minor; micro])).

Definition mast_headers (env : Env) : list (str * str) :=
  [(lit "Content-type", lit "application/x-www-form-urlencoded");
   (lit "Accept", lit "text/plain");
   (lit "User-agent", lit "python-requests/" ++ version env)].

Definition mast_request (env : Env) (requestString : str) : Request :=
  {| rq_method := lit "POST"; rq_url := lit "/api/v0/invoke";
     rq_body := lit "request=" ++ requestString; rq_headers := mast_headers env |}.

(** The dictionary [resolve] builds for a name. *)
Definition resolverRequest (name : str) : value :=
  VDict [(lit "service", VStr (lit "Mast.Name.Lookup"));
         (lit "params", VDict [(lit "input", VStr name);
                               (lit "format", VStr (lit "json"))])].

(** The requests among the calls made between two worlds. *)
Definition requests_of (evs : list Event) : list (nat * Request) :=
  omap (fun ev => match ev with
                  | EvRequest c rq => Some (c, rq)
                  | _ => None
                  end) evs.

Definition events_since (w w' : World) : list Event :=
  drop (length (trace w)) (trace w').

(** A header field by name; field names are case-insensitive in HTTP. *)
Definition lower (c : codepoint) : codepoint :=
  if in_range "A" "Z" c then (c + 32)%N else c.

Definition header_get (hs : list (str * str)) (name : str) : option str :=
  snd <$> List.find (fun kv => bool_decide (lower <$> kv.1 = lower <$> name)) hs.

(** ** The text of a value *)

(** The text [json.dumps] writes for a value when it refuses none of its
    integers, and the test that it refuses none. *)
Fixpoint json_text (frepr : spec_float -> string) (o : value) : str :=
  match o with
  | VNone => lit "null"
  | VBool true => lit "true"
  | VBool false => lit "false"
  | VInt z => decimal z
  | VFloat f => floatstr frepr f
  | VStr s => encode_basestring_ascii s
  | VList [] => lit "[]"
  | VList l => ch "[" :: join (lit ", ") (List.map (json_text frepr) l) ++ [ch "]"]
  | VDict [] => lit "{}"
  | VDict d =>
      ch "{" ::
        join (lit ", ")
          (List.map (fun kv : str * value =>
                       let (k, v) := kv in
                       encode_basestring_ascii k ++ lit ": " ++ json_text frepr v) d)
        ++ [ch "}"]
  end.

Fixpoint within_limit (limit : N) (o : value) : bool :=
  match o with
  | VInt z => negb (over_limit limit (length (decimal (Z.abs z))))
  | VList l => forallb (within_limit limit) l
  | VDict d => forallb (fun kv : str * value => within_limit limit kv.2) d
  | _ => true
  end.

(** ** Runs of the program, summarised *)

(** [json.dumps(request)] in the interpreter of [env]. *)
Definition json_of (env : Env) (o : value) : Result str :=
  dumps (float_repr env) (int_max_str_digits env) o.

(** The quoted text of an object, as [mastQuery] computes it (and no text
    when [json.dumps] refuses the object). *)
Definition requestString (env : Env) (o : value) : str :=
  match (let! text := json_of env o in urlencode text) with
  | Ok s => s
  | Raise _ => []
  end.

(** The world a run of [mastQuery] leaves behind: the heap as it was, one
    more connection object, with or without an open socket, and the request
    followed by the calls [evs] in the trace. *)
Definition after_query (env : Env) (o : value) (w : World) (is_open : bool)
    (pending : option Reply) (evs : list Event) : World :=
  {| heap := heap w;
     conns := conns w ++ [{| conn_endpoint := mast_endpoint; conn_open := is_open;
                             conn_pending := pending |}];
     trace := trace w
                ++ EvRequest (length (conns w)) (mast_request env (requestString env o))
                :: evs |}.

Definition mastQuery_outcome (env : Env) (o : value) (w : World)
  : Result (list (str * str) * str) * World :=
  let c := length (conns w) in
  match json_of env o with
  | Raise e => (Raise e, w)
  | Ok _ =>
      match network env mast_endpoint (mast_request env (requestString env o)) with
      | ConnectFails e => (Raise e, after_query env o w false None [])
      | SendFails e => (Raise e, after_query env o w true None [])
      | NoResponse e =>
          (Raise e,
           after_query env o w (negb (is_ConnectionError e))
             (if is_ConnectionError e then None else Some (NoResponse e))
             [EvGetResponse c])
      | Response will_close head (ReadFails e) =>
          (Raise e,
           after_query env o w (negb will_close) None [EvGetResponse c; EvRead c])
      | Response will_close head (BodyBytes bs) =>
          match utf8_decode bs with
          | Raise e =>
              (Raise e,
               after_query env o w (negb will_close) None [EvGetResponse c; EvRead c])
          | Ok content =>
              (Ok (head, content),
               after_query env o w false None [EvGetResponse c; EvRead c; EvClose c])
          end
      end
  end.

(** [obj['resolvedCoordinate'][0][field]] *)
Definition first_coordinate (obj : value) (field : str) : Result value :=
  let! a := getitem obj (VStr (lit "resolvedCoordinate")) in
  let! b := getitem a (VInt 0) in
  getitem b (VStr field).

Definition unknown_object (name : str) : exn :=
  ValueError (lit "Unknown object '" ++ name ++ lit "'").

(** The [try] statement of [resolve] and its [return], on the decoded
    response. *)
Definition coordinate_of (name : str) (obj : value) : Result (value * value) :=
  match first_coordinate obj (lit "ra") with
  | Ok objRa =>
      match first_coordinate obj (lit "decl") with
      | Ok objDec => Ok (objRa, objDec)
      | Raise IndexError => Raise (unknown_object name)
      | Raise e => Raise e
      end
  | Raise IndexError => Raise (unknown_object name)
  | Raise e => Raise e
  end.

(** The request [resolve] sends for a name, and the decoded response it
    works on: the reply of the network to that request, its body read,
    decoded as UTF-8 and parsed as JSON. *)
Definition lookup_request (env : Env) (name : str) : Request :=
  mast_request env (requestString env (resolverRequest name)).

Definition response_text (env : Env) (name : str) : Result str :=
  match network env mast_endpoint (lookup_request env name) with
  | ConnectFails e | SendFails e | NoResponse e | Response _ _ (ReadFails e) => Raise e
  | Response _ _ (BodyBytes bs) => utf8_decode bs
  end.

Definition decoded_response (env : Env) (name : str) : Result value :=
  let! content := response_text env name in loads (int_max_str_digits env) content.

Definition with_object (w : World) (o : value) : World :=
  {| heap := heap w ++ [o]; conns := conns w; trace := trace w |}.

(** ** Test doubles *)

(** A stub service that answers every request with the same body, given
    bytes or an ASCII text, and no header (a response without a length
    ends the connection), to Python 3.11.4 with its default limit of 4300
    digits. *)
Definition python_3_11_4 : Byte.byte * Byte.byte * Byte.byte :=
  (Byte.x03, Byte.x0b, Byte.x04).

Definition stub_bytes (body : bytes) : Env :=
  {| version_info := python_3_11_4;
     int_max_str_digits := 4300;
     float_repr := fun _ => "0.0"%string;
     network := fun _ _ => Response true [] (BodyBytes body) |}.


Definition stub (body : str) : Env := stub_bytes (blit body).

Definition empty_world : World := {| heap := []; conns := []; trace := [] |}.

(** A world whose only object, at location 0, is a request dictionary. *)
Definition request_world : World :=
  {| heap := [VDict [(lit "service", VStr (lit "Mast.Name.Lookup"));
                     (lit "params", VDict [(lit "input", VStr (lit "KQ UMa"));
                                           (lit "format", VStr (lit "json"))])]];
     conns := []; trace := [] |}.

(** A world whose only object is a request that holds an integer of 4301
    digits. *)
Definition big_request_world : World :=
  {| heap := [VDict [(lit "service", VStr (lit "Mast.Name.Lookup"));
                     (lit "params", VDict [(lit "input", VInt (10 ^ 4300))])]];
     conns := []; trace := [] |}.

Definition KEY : value := VStr (lit "resolvedCoordinate").

(** ** Shapes and ranges of responses *)

(** [v] is an object with a field [k]. *)
Definition has_field (v : value) (k : str) : bool :=
  match v with
  | VDict d => match dict_get d k with
               | Some _ => true
               | None => false
               end
  | _ => false
  end.

(** The float equal to a small integer. *)
Definition float_of_Z (z : Z) : spec_float := binary_normalize prec emax z 0 false.

(** [lo <= v < hi], or [lo <= v <= hi], for a number [v]. *)
Definition within (lo hi : Z) (strict : bool) (v : value) : bool :=
  match v with
  | VInt z => (lo <=? z)%Z && (if strict then z <? hi else z <=? hi)%Z
  | VFloat f =>
      SFleb (float_of_Z lo) f
      && (if strict then SFltb f (float_of_Z hi) else SFleb f (float_of_Z hi))
  | _ => false
  end.

Definition ra_in_range : value -> bool := within 0 360 true.
Definition decl_in_range : value -> bool := within (-90) 90 false.


(** What a scanner makes of a text [s] when it has fuel enough: a value and
    a rest shorter than [s], or one of its two errors, a [JSONDecodeError]
    or the [ValueError] of the digit limit. *)
Definition scan_error (e : exn) : bool :=
  match e with
  | JSONDecodeError | DigitLimitError => true
  | _ => false
  end.

Definition consumes {A} (s : str) (r : Result (A * str)) : Prop :=
  match r with
  | Ok (_, rest) => length rest < length s
  | Raise e => scan_error e = true
  end.

(** ** Reading a request back *)

(** Undoing [quote]: every [%XX] becomes the byte it names, the other
    characters stand for themselves, and the bytes are read as UTF-8. *)
Fixpoint unquote_to_bytes (s : str) : Result bytes :=
  match s with
  | [] => Ok []
  | c :: s' =>
      let plain :=
        let! b := utf8_encode_char c in
        let! bs := unquote_to_bytes s' in
        Ok (b ++ bs) in
      if decide (c = ch "%") then
        match s' with
        | h :: l :: r =>
            match hex_value h, hex_value l with
            | Some a, Some b =>
                let! bs := unquote_to_bytes r in Ok (byte_of (a * 16 + b) :: bs)
            | _, _ => plain
            end
        | _ => plain
        end
      else plain
  end.

Definition unquote (s : str) : Result str :=
  let! bs := unquote_to_bytes s in utf8_decode bs.

(** The body [resolve] sends for the name [KQ UMa], and the JSON text it
    quotes. *)
Definition kq_quoted : str :=
  lit "%7B%22service%22%3A%20%22Mast.Name.Lookup%22%2C%20%22params%22%3A%20%7B%22input%22%3A%20%22KQ%20UMa%22%2C%20%22format%22%3A%20%22json%22%7D%7D".

Definition kq_body : str := lit "request=" ++ kq_quoted.

Definition kq_text : str :=
  qlit "{'service': 'Mast.Name.Lookup', 'params': {'input': 'KQ UMa', 'format': 'json'}}".

(** What [quote] makes of an ASCII character is read back by [unquote]:
    either the character itself, which is not a percent sign, or a percent
    sign and the two hexadecimal digits of its code. *)
Definition quote_byte_ok (c : N) : bool :=
  (Byte.to_N (byte_of c) =? c)%N
  && match quote_byte (byte_of c) with
     | [x] => (x =? c)%N && negb (x =? ch "%")%N
     | [p; h; l] =>
         (p =? ch "%")%N
         && match hex_value h, hex_value l with
            | Some a, Some b => (a * 16 + b =? c)%N
            | _, _ => false
            end
     | _ => false
     end.

(** The JSON text of the request for a name, and the body that carries it:
    functions of the name alone. *)
Definition request_text (name : str) : str :=
  qlit "{'service': 'Mast.Name.Lookup', 'params': {'input': "
    ++ encode_basestring_ascii name ++ qlit ", 'format': 'json'}}".

Definition request_body (name : str) : str :=
  lit "request=" ++ quote_from_bytes (blit (request_text name)).

(** ** The exchange, call by call *)

(** The calls of a complete exchange on the connection [c], in order. *)
Definition full_exchange (c : nat) (rq : Request) : list Event :=
  [EvRequest c rq; EvGetResponse c; EvRead c; EvClose c].

Definition closed (k : Conn) : bool := negb (conn_open k).

(** The UTF-8 byte-order mark. *)
Definition utf8_bom : bytes := [Byte.xef; Byte.xbb; Byte.xbf].

(** ** Texts and requests that survive serialisation *)

(** A Unicode scalar value: a code point that is not a surrogate. *)
Definition scalar (c : codepoint) : bool :=
  (c <? 55296)%N || ((57343 <? c)%N && (c <=? 1114111)%N).

(** The values [json.loads] gives back as [json.dumps] took them: built
    from [None], booleans, strings of scalar values, lists, and
    dictionaries with such strings as keys, no key twice. *)
Fixpoint plain (v : value) : bool :=
  match v with
  | VNone | VBool _ => true
  | VInt _ | VFloat _ => false
  | VStr s => forallb scalar s
  | VList l => forallb plain l
  | VDict d =>
      forallb (fun kv : str * value =>
                 let (k, x) := kv in forallb scalar k && plain x) d
      && bool_decide (NoDup (fst <$> d))
  end.

(** The text of one member of a dictionary and of all of them, as [dumps]
    writes them. *)
Definition member (frepr : spec_float -> string) (kv : str * value) : str :=
  let (k, v) := kv in encode_basestring_ascii k ++ lit ": " ++ json_text frepr v.

Definition members (frepr : spec_float -> string) (d : list (str * value)) : str :=
  join (lit ", ") (List.map (member frepr) d).

(** What follows the opening quotation mark of a member. *)
Definition member_tail (frepr : spec_float -> string) (kv : str * value) : str :=
  let (k, v) := kv in
  concat (escape_char <$> k) ++ quot :: lit ": " ++ json_text frepr v.

(** The first character of a JSON value. *)
Definition starts_value (c : codepoint) : bool :=
  bool_decide (c ∈ [ch "n"; ch "t"; ch "f"; quot; ch "["; ch "{"]).

(** The scanner, given fuel for twice the text, reads [v] back from the
    text [dumps] wrote for it, and leaves what follows. *)
Definition reads_back (frepr : spec_float -> string) (v : value) : Prop :=
  forall (limit : N) (fuel : nat) (r : str),
    2 * length (json_text frepr v) + 1 <= fuel ->
    scan_once limit fuel (json_text frepr v ++ r) = Ok (v, r).

(** What the service makes of a quoted request: the text unquoted, read as
    JSON by an interpreter with the digit limit [limit]. *)
Definition read_back (limit : N) (q : str) : Result value :=
  let! text := unquote q in loads limit text.

(** The field [params.input] of a request read back. *)
Definition input_of (limit : N) (q : str) : Result value :=
  let! o := read_back limit q in
  let! params := getitem o (VStr (lit "params")) in
  getitem params (VStr (lit "input")).

(** The bodies of the requests made between two worlds. *)
Definition bodies_since (w w' : World) : list str :=
  rq_body <$> (snd <$> requests_of (events_since w w')).



(** Two names Python tells apart and [json.dumps] does not: a surrogate
    pair, and the character it stands for. *)
Definition pair_name : str := [55357%N; 56832%N].
Definition astral_name : str := [128512%N].

(** The exceptions with which [resolve] can end once it has read a
    response. *)
Definition response_errors (name : str) : list exn :=
  [UnicodeDecodeError; JSONDecodeError; DigitLimitError; unknown_object name;
   TypeError;
   KeyError KEY; KeyError (VInt 0); KeyError (VStr (lit "ra"));
   KeyError (VStr (lit "decl"))].

(** * Properties *)

(** ** The runtime model on known values *)

(** [float('0.1')] is [0x1.999999999999ap-4], [float('1e400')] is [inf], and
    [2**53 + 1] rounds to even. *)
Example float_of_decimal_tenth :
  float_of_decimal false 1 (-1) = S754_finite false 0x1999999999999a (-56).
Proof. reflexivity. Qed.

Example float_of_decimal_overflow :
  float_of_decimal false 1 400 = S754_infinity false.
Proof. vm_compute. reflexivity. Qed.

Example float_of_decimal_half_even :
  float_of_decimal false 9007199254740993 0 = S754_finite false (2 ^ 52) 1.
Proof. vm_compute. reflexivity. Qed.

Example float_of_decimal_smallest :
  float_of_decimal false 5 (-324) = S754_finite false 1 (-1074)
  /\ float_of_decimal false 2 (-324) = S754_zero false.
Proof. split; vm_compute; reflexivity. Qed.

(** [json.loads]: whitespace, nesting, a repeated key (the last value wins,
    in the place of the first), escapes and the three kinds of numbers. *)
Example loads_nested :
  loads 4300 (qlit " { 'a' : [1, 2 ,[ ] , {}], 'b': 'q\u00e9\ud83d\ude00\n\/' , 'a': -0.0 } ")
  = Ok (VDict [(lit "a", VFloat (S754_zero true));
               (lit "b", VStr [113; 233; 128512; 10; 47]%N)]).
Proof. vm_compute. reflexivity. Qed.

Example loads_numbers :
  loads 4300 (qlit "[NaN, -Infinity, 1e5, 0.5e-1, -7, 12]")
  = Ok (VList [VFloat S754_nan; VFloat (S754_infinity true);
               VFloat (S754_finite false (100000 * 2 ^ 36) (-36));
               VFloat (S754_finite false 0x1999999999999a (-57));
               VInt (-7); VInt 12]).
Proof. vm_compute. reflexivity. Qed.

Example loads_rejects :
  loads 4300 (qlit "[1,]") = Raise JSONDecodeError
  /\ loads 4300 (qlit "{'a':1,}") = Raise JSONDecodeError
  /\ loads 4300 (qlit "01") = Raise JSONDecodeError
  /\ loads 4300 (qlit "1 2") = Raise JSONDecodeError
  /\ loads 4300 (qlit "'abc") = Raise JSONDecodeError
  /\ loads 4300 [] = Raise JSONDecodeError.
Proof. repeat split; vm_compute; reflexivity. Qed.

(** The limit on the digits of an [int], here the least that can be set:
    640 digits are read and written, 641 are not, with or without a sign; a
    [float] of as many digits is read; without a limit, so is the [int]. *)
Example loads_digit_limit :
  loads 640 (repeat (ch "7") 640) = Ok (VInt (digits_value (repeat (ch "7") 640)))
  /\ loads 640 (repeat (ch "7") 641) = Raise DigitLimitError
  /\ loads 640 (ch "-" :: repeat (ch "7") 641) = Raise DigitLimitError
  /\ loads 640 (ch "[" :: repeat (ch "7") 641 ++ [ch "]"]) = Raise DigitLimitError
  /\ loads 640 (repeat (ch "7") 641 ++ lit ".0") = Ok (VFloat (S754_infinity false))
  /\ loads 0 (repeat (ch "7") 641) = Ok (VInt (digits_value (repeat (ch "7") 641))).
Proof. repeat apply conj; vm_compute; reflexivity. Qed.

Example dumps_digit_limit (frepr : spec_float -> string) :
  (let! text := dumps frepr 640 (VInt (10 ^ 639)) in Ok (length text)) = Ok 640
  /\ dumps frepr 640 (VInt (10 ^ 640)) = Raise DigitLimitError
  /\ (let! text := dumps frepr 640 (VInt (- 10 ^ 639)) in Ok (length text)) = Ok 641
  /\ dumps frepr 640 (VInt (- 10 ^ 640)) = Raise DigitLimitError
  /\ dumps frepr 640 (VDict [(lit "n", VList [VInt 1; VInt (10 ^ 640)])])
     = Raise DigitLimitError
  /\ (let! text := dumps frepr 0 (VInt (10 ^ 640)) in Ok (length text)) = Ok 641.
Proof. repeat apply conj; vm_compute; reflexivity. Qed.

(** [json.dumps]: separators with a space, [\uXXXX] for what is not
    printable ASCII, a surrogate pair above U+FFFF. *)
Example dumps_escapes (frepr : spec_float -> string) (limit : N) :
  dumps frepr limit
    (VDict [(lit "a", VList [VInt 1; VNone; VStr (lit "x\y" ++ [233; 128512; 127; 10]%N)]);
            (lit "b", VDict []); (lit "c", VList [VBool true])])
  = Ok (qlit "{'a': [1, null, 'x\\y\u00e9\ud83d\ude00\u007f\n'], 'b': {}, 'c': [true]}").
Proof. reflexivity. Qed.

(** [quote]: the safe characters stay, the others become [%XX] of their
    UTF-8 bytes. *)
Example quote_text :
  quote (qlit "{'a': 'KQ UMa/~_.-'}" ++ [233%N])
  = Ok (lit "%7B%22a%22%3A%20%22KQ%20UMa/~_.-%22%7D%C3%A9").
Proof. vm_compute. reflexivity. Qed.

(** [bytes.decode('utf-8')]: two- and four-byte forms; an overlong form, an
    encoded surrogate and a stray byte are refused. *)
Example utf8_decode_forms :
  utf8_decode [Byte.xc3; Byte.xa9; Byte.xf0; Byte.x9f; Byte.x98; Byte.x80]
  = Ok [233; 128512]%N
  /\ utf8_decode [Byte.xc0; Byte.x80] = Raise UnicodeDecodeError
  /\ utf8_decode [Byte.xed; Byte.xa0; Byte.x80] = Raise UnicodeDecodeError
  /\ utf8_decode [Byte.xff] = Raise UnicodeDecodeError.
Proof. repeat split; vm_compute; reflexivity. Qed.

(** Subscripts: a negative index, an index out of range, a missing key, a
    value that is not subscriptable. *)
Example getitem_cases :
  getitem (VList [VInt 1; VInt 2]) (VInt (-1)) = Ok (VInt 2)
  /\ getitem (VList [VInt 1; VInt 2]) (VInt 2) = Raise IndexError
  /\ getitem (VStr []) (VInt 0) = Raise IndexError
  /\ getitem (VDict []) (VInt 0) = Raise (KeyError (VInt 0))
  /\ getitem (VFloat (S754_zero false)) (VStr (lit "ra")) = Raise TypeError.
Proof. repeat split; vm_compute; reflexivity. Qed.

(** One run of [resolve] from an empty world: the request dictionary is
    allocated, one connection is created, and the four calls are made on it
    in order. *)
Example resolve_trace :
  let w := (resolve (stub (qlit "{'resolvedCoordinate':[{'ra':1,'decl':2}]}"))
              (lit "KQ UMa") empty_world).2 in
  heap w = [resolverRequest (lit "KQ UMa")]
  /\ conns w = [{| conn_endpoint := mast_endpoint; conn_open := false;
                   conn_pending := None |}]
  /\ trace w
     = [EvRequest 0 (lookup_request (stub []) (lit "KQ UMa"));
        EvGetResponse 0; EvRead 0; EvClose 0].
Proof. repeat split; vm_compute; reflexivity. Qed.

(** ** The scanner never runs out of fuel *)

Lemma consumes_le {A} (s1 s2 : str) (r : Result (A * str)) :
  consumes s1 r -> length s1 <= length s2 -> consumes s2 r.
Proof. destruct r as [[a rest]|e]; cbn [consumes]; [lia | auto]. Qed.

Lemma skip_ws_length (s : str) : length (skip_ws s) <= length s.
Proof.
  induction s as [|c s IH]; cbn [skip_ws length]; [lia|].
  destruct (is_ws c); cbn [length]; lia.
Qed.

Lemma strip_prefix_shorter (p s r : str) :
  p <> [] -> strip_prefix p s = Some r -> length r < length s.
Proof.
  assert (Hle : forall p s r, strip_prefix p s = Some r -> length r <= length s).
  { clear. induction p as [|a p IH]; intros s r.
    - destruct s; cbn [strip_prefix]; intros [= <-]; lia.
    - destruct s as [|b s]; cbn [strip_prefix]; [discriminate|].
      case_decide; [|discriminate]. intros Hp. apply IH in Hp. cbn [length]. lia. }
  destruct p as [|a p]; [congruence|]. intros _.
  destruct s as [|b s]; cbn [strip_prefix]; [discriminate|].
  case_decide; [|discriminate]. intros Hp. apply Hle in Hp. cbn [length]. lia.
Qed.

Lemma span_digits_length (s ds r : str) :
  span_digits s = (ds, r) -> length r <= length s.
Proof.
  revert ds r. induction s as [|c s IH]; intros ds r; cbn [span_digits].
  - intros [= <- <-]. lia.
  - destruct (is_digit c).
    + destruct (span_digits s) as [ds' r'] eqn:E. intros [= <- <-].
      specialize (IH _ _ eq_refl). cbn [length]. lia.
    + intros [= <- <-]. lia.
Qed.

Lemma match_number_shorter (limit : N) (s : str) (res : Result (value * str)) :
  match_number limit s = Some res -> consumes s res.
Proof.
  unfold match_number.
  assert (Hint : forall s ip r, match_integer s = Some (ip, r) -> length r < length s).
  { clear. intros [|c s] ip r; cbn [match_integer]; [discriminate|].
    case_decide; [intros [= <- <-]; cbn [length]; lia|].
    destruct (is_digit c); [|discriminate].
    destruct (span_digits s) as [ds r'] eqn:E. intros [= <- <-].
    apply span_digits_length in E. cbn [length]. lia. }
  assert (Hfrac : forall s fp r, match_frac s = Some (fp, r) -> length r <= length s).
  { clear. intros [|c s] fp r; cbn [match_frac]; [discriminate|].
    case_decide; [|discriminate].
    destruct (span_digits s) as [[|d ds] r'] eqn:E; [discriminate|].
    intros [= <- <-]. apply span_digits_length in E. cbn [length]. lia. }
  assert (Hexp : forall s ep r, match_exp s = Some (ep, r) -> length r <= length s).
  { clear. intros [|c s] ep r; cbn [match_exp]; [discriminate|].
    destruct (bool_decide (c = ch "e") || bool_decide (c = ch "E")); [|discriminate].
    assert (Hsign :
              length (match s with
                      | g :: t => if decide (g = ch "-") then (true, t)
                                  else if decide (g = ch "+") then (false, t)
                                  else (false, s)
                      | [] => (false, s)
                      end).2 <= length s).
    { destruct s as [|g t]; [cbn; lia|]. repeat case_decide; cbn [snd length]; lia. }
    destruct (match s with
              | g :: t => _
              | [] => _
              end) as [neg s''].
    cbn [snd] in Hsign.
    destruct (span_digits s'') as [[|d ds] r'] eqn:E; [discriminate|].
    intros [= <- <-]. apply span_digits_length in E. cbn [length]. lia. }
  set (start := match s with
                | c :: s' => if decide (c = ch "-") then (true, s') else (false, s)
                | [] => (false, s)
                end).
  assert (Hstart : length start.2 <= length s).
  { subst start. destruct s as [|c s']; [cbn; lia|].
    case_decide; cbn [snd length]; lia. }
  destruct start as [neg s1]. cbn [snd] in Hstart.
  destruct (match_integer s1) as [[ip s2]|] eqn:Ei; [|discriminate].
  apply Hint in Ei.
  destruct (match_frac s2) as [[fp s3]|] eqn:Ef.
  - apply Hfrac in Ef.
    destruct (match_exp s3) as [[ep s4]|] eqn:Ee.
    + apply Hexp in Ee. intros [= <-]. cbn [consumes]. lia.
    + intros [= <-]. cbn [consumes]. lia.
  - destruct (match_exp s2) as [[ep s4]|] eqn:Ee.
    + apply Hexp in Ee. intros [= <-]. cbn [consumes]. lia.
    + intros [= <-]. unfold int_of_digits.
      destruct (over_limit limit (length ip)); cbn [rbind consumes];
        [reflexivity | lia].
Qed.

Lemma decode_uXXXX_consumes (s : str) : consumes s (decode_uXXXX s).
Proof.
  unfold decode_uXXXX.
  destruct s as [|a [|b [|c [|d r]]]]; try reflexivity.
  destruct (hex_value a), (hex_value b), (hex_value c), (hex_value d);
    cbn [consumes length]; try reflexivity. lia.
Qed.

Lemma scanstring_consumes (fuel : nat) (s acc : str) :
  length s <= fuel -> consumes s (scanstring fuel s acc).
Proof.
  revert s acc. induction fuel as [|fuel IH]; intros s acc Hfuel.
  - destruct s; [reflexivity | cbn [length] in Hfuel; lia].
  - destruct s as [|c s']; [reflexivity|].
    cbn [scanstring length] in *.
    case_decide; [cbn [consumes length]; lia|].
    case_decide.
    + destruct s' as [|esc s'']; [reflexivity|].
      cbn [length] in Hfuel.
      case_decide.
      * pose proof (decode_uXXXX_consumes s'') as Hu.
        destruct (decode_uXXXX s'') as [[uni r]|e]; cbn [rbind consumes] in *;
          [|exact Hu].
        assert (Hr : consumes (c :: esc :: s'') (scanstring fuel r (acc ++ [uni]))).
        { eapply consumes_le; [apply IH; lia | cbn [length]; lia]. }
        destruct ((55296 <=? uni) && (uni <=? 56319))%N; [|exact Hr].
        destruct (strip_prefix [ch "\"; ch "u"] r) as [r'|] eqn:Ep; [|exact Hr].
        apply strip_prefix_shorter in Ep; [|discriminate].
        pose proof (decode_uXXXX_consumes r') as Hu'.
        destruct (decode_uXXXX r') as [[uni2 r2]|e]; cbn [rbind consumes] in *;
          [|exact Hu'].
        destruct ((56320 <=? uni2) && (uni2 <=? 57343))%N; [|exact Hr].
        eapply consumes_le; [apply IH; lia | cbn [length]; lia].
      * destruct (backslash esc); [|reflexivity].
        eapply consumes_le; [apply IH; lia | cbn [length]; lia].
    + destruct (c <? 32)%N; [reflexivity|].
      eapply consumes_le; [apply IH; lia | cbn [length]; lia].
Qed.

Lemma scan_consumes (limit : N) (fuel : nat) :
  (forall s, 2 * length s + 1 <= fuel -> consumes s (scan_once limit fuel s))
  /\ (forall s values, 2 * length s + 2 <= fuel ->
                       consumes s (JSONArray limit fuel s values))
  /\ (forall s pairs, 2 * length s + 2 <= fuel ->
                      consumes s (JSONObject limit fuel s pairs)).
Proof.
  induction fuel as [|fuel (IHs & IHa & IHo)];
    [repeat split; intros; lia|].
  split; [|split].
  - intros [|c s'] Hfuel; [reflexivity|].
    cbn [scan_once]. cbn [length] in Hfuel.
    pose proof (skip_ws_length s') as Hws.
    case_decide.
    { pose proof (scanstring_consumes (length s') s' [] (le_n _)) as Hk.
      destruct (scanstring _ s' []) as [[k r]|e]; cbn [rbind consumes length] in *;
        [lia | exact Hk]. }
    case_decide.
    { destruct (skip_ws s') as [|q r]; [reflexivity|]. cbn [length] in Hws.
      case_decide; [cbn [consumes length]; lia|].
      case_decide; [|reflexivity].
      eapply consumes_le; [apply IHo; lia | cbn [length]; lia]. }
    case_decide.
    { destruct (skip_ws s') as [|q r]; [reflexivity|]. cbn [length] in Hws.
      case_decide; [cbn [consumes length]; lia|].
      eapply consumes_le; [apply IHa; cbn [length]; lia | cbn [length]; lia]. }
    repeat match goal with
           | |- consumes _ match strip_prefix ?p ?s with _ => _ end =>
               let E := fresh "E" in
               destruct (strip_prefix p s) eqn:E;
               [apply strip_prefix_shorter in E; [exact E | discriminate]|]
           | |- consumes _ match match_number ?l ?s with _ => _ end =>
               let E := fresh "E" in
               destruct (match_number l s) as [res|] eqn:E;
               [apply match_number_shorter in E; exact E|]
           end.
    reflexivity.
  - intros s values Hfuel. cbn [JSONArray].
    assert (Hs : consumes s (scan_once limit fuel s)) by (apply IHs; lia).
    destruct (scan_once limit fuel s) as [[v r]|e]; cbn [rbind consumes] in *; [|exact Hs].
    pose proof (skip_ws_length r) as Hws.
    destruct (skip_ws r) as [|c r']; [reflexivity|]. cbn [length] in Hws.
    case_decide; [cbn [consumes]; lia|].
    case_decide; [|reflexivity].
    pose proof (skip_ws_length r') as Hws'.
    eapply consumes_le; [apply IHa; lia | lia].
  - intros s pairs Hfuel. cbn [JSONObject].
    pose proof (scanstring_consumes (length s) s [] (le_n _)) as Hk.
    destruct (scanstring _ s []) as [[key r]|e]; cbn [rbind consumes] in *;
      [|exact Hk].
    pose proof (skip_ws_length r) as Hws.
    destruct (skip_ws r) as [|c r1]; [reflexivity|]. cbn [length] in Hws.
    case_decide; [|reflexivity].
    pose proof (skip_ws_length r1) as Hws1.
    assert (Hv : consumes (skip_ws r1) (scan_once limit fuel (skip_ws r1)))
      by (apply IHs; lia).
    destruct (scan_once limit fuel (skip_ws r1)) as [[v r2]|e]; cbn [rbind consumes] in *;
      [|exact Hv].
    pose proof (skip_ws_length r2) as Hws2.
    destruct (skip_ws r2) as [|d r3]; [reflexivity|]. cbn [length] in Hws2.
    case_decide; [cbn [consumes]; lia|].
    case_decide; [|reflexivity].
    pose proof (skip_ws_length r3) as Hws3.
    destruct (skip_ws r3) as [|q r4]; [reflexivity|]. cbn [length] in Hws3.
    case_decide; [|reflexivity].
    eapply consumes_le; [apply IHo; lia | lia].
Qed.

(** [loads] ends in a value, in a [JSONDecodeError] or in the [ValueError]
    of the digit limit: the fuel it gives the scanner is enough for every
    text. *)
Lemma loads_total (limit : N) (s : str) :
  (exists obj, loads limit s = Ok obj)
  \/ loads limit s = Raise JSONDecodeError
  \/ loads limit s = Raise DigitLimitError.
Proof.
  unfold loads. destruct (strip_prefix [65279%N] s); [auto|].
  pose proof (skip_ws_length s) as Hws.
  assert (Hc : consumes (skip_ws s)
                 (scan_once limit (2 * length s + 2) (skip_ws s)))
    by (apply scan_consumes; lia).
  destruct (scan_once _ _ (skip_ws s)) as [[obj r]|e]; cbn [rbind consumes] in *.
  - destruct (skip_ws r); eauto.
  - right. destruct e; try discriminate; auto.
Qed.

(** ** The text [json.dumps] produces can always be quoted *)

Lemma N_of_ascii_lt (a : ascii) : (N_of_ascii a < 256)%N.
Proof. destruct a as [[] [] [] [] [] [] [] []]; vm_compute; reflexivity. Qed.

Lemma lit_lt (s : string) : Forall (fun c => (c < 256)%N) (lit s).
Proof.
  unfold lit. induction s as [|a s IH]; simpl; constructor; auto using N_of_ascii_lt.
Qed.

Lemma hex_lower_lt (d : N) : (d < 16)%N -> (hex_lower d < 128)%N.
Proof.
  intros Hd. unfold hex_lower. change (ch "0") with 48%N. change (ch "a") with 97%N.
  destruct (d <? 10)%N eqn:E; [apply N.ltb_lt in E | apply N.ltb_ge in E]; lia.
Qed.

Lemma escape_u_lt (n : N) : Forall (fun c => (c < 128)%N) (escape_u n).
Proof.
  unfold escape_u.
  repeat apply List.Forall_cons; try apply List.Forall_nil; try reflexivity;
    apply hex_lower_lt, N.mod_lt; discriminate.
Qed.

Lemma escape_char_lt (c : codepoint) : Forall (fun c => (c < 128)%N) (escape_char c).
Proof.
  unfold escape_char.
  repeat (case_decide; [repeat constructor|]).
  destruct ((32 <=? c) && (c <=? 126))%N eqn:E.
  - apply andb_prop in E as [_ E]. apply N.leb_le in E.
    repeat constructor. lia.
  - destruct (c <? 65536)%N; [apply escape_u_lt|].
    apply Forall_app; split; apply escape_u_lt.
Qed.

Lemma encode_basestring_ascii_lt (s : str) :
  Forall (fun c => (c < 128)%N) (encode_basestring_ascii s).
Proof.
  unfold encode_basestring_ascii. constructor; [reflexivity|].
  apply Forall_app; split; [|repeat constructor].
  induction s as [|c s IH]; cbn [fmap list_fmap concat]; [constructor|].
  apply Forall_app; split; [apply escape_char_lt | exact IH].
Qed.

Lemma ascii_lt_256 (s : str) :
  Forall (fun c => (c < 128)%N) s -> Forall (fun c => (c < 256)%N) s.
Proof. intros H. eapply Forall_impl; [exact H|]. intros c Hc. cbn beta in *. lia. Qed.

Lemma join_lt (sep : str) (parts : list str) :
  Forall (fun c => (c < 256)%N) sep ->
  Forall (Forall (fun c => (c < 256)%N)) parts ->
  Forall (fun c => (c < 256)%N) (join sep parts).
Proof.
  intros Hsep. induction 1 as [|p ps Hp Hps IH]; simpl; [constructor|].
  destruct ps as [|q ps]; [exact Hp|].
  apply Forall_app; split; [exact Hp|].
  apply Forall_app; split; [exact Hsep | exact IH].
Qed.

(** Induction on values, through the lists and dictionaries they nest in. *)
Section value_induction.
Variable P : value -> Prop.
Hypothesis HNone : P VNone.
Hypothesis HBool : forall b, P (VBool b).
Hypothesis HInt : forall z, P (VInt z).
Hypothesis HFloat : forall f, P (VFloat f).
Hypothesis HStr : forall s, P (VStr s).
Hypothesis HList : forall l, Forall P l -> P (VList l).
Hypothesis HDict : forall d, Forall (fun kv => P kv.2) d -> P (VDict d).

Fixpoint value_nested_ind (v : value) : P v :=
  match v with
  | VNone => HNone
  | VBool b => HBool b
  | VInt z => HInt z
  | VFloat f => HFloat f
  | VStr s => HStr s
  | VList l =>
      HList l ((fix go (l : list value) : Forall P l :=
                  match l with
                  | [] => List.Forall_nil _
                  | x :: l' => @List.Forall_cons _ P x l' (value_nested_ind x) (go l')
                  end) l)
  | VDict d =>
      HDict d ((fix go (d : list (str * value)) : Forall (fun kv => P kv.2) d :=
                  match d with
                  | [] => List.Forall_nil _
                  | kv :: d' =>
                      @List.Forall_cons _ (fun kv => P kv.2) kv d' (value_nested_ind kv.2) (go d')
                  end) d)
  end.
End value_induction.

Lemma json_text_lt (frepr : spec_float -> string) (o : value) :
  Forall (fun c => (c < 256)%N) (json_text frepr o).
Proof.
  induction o as [| b | z | f | s | l IH | d IH] using value_nested_ind.
  - apply lit_lt.
  - destruct b; apply lit_lt.
  - apply lit_lt.
  - destruct f as [| [] | |]; apply lit_lt.
  - apply ascii_lt_256, encode_basestring_ascii_lt.
  - destruct l as [|x l]; [apply lit_lt|].
    change (json_text frepr (VList (x :: l)))
      with (ch "[" :: join (lit ", ") (List.map (json_text frepr) (x :: l)) ++ [ch "]"]).
    constructor; [vm_compute; reflexivity|].
    apply Forall_app; split; [|repeat constructor; vm_compute; reflexivity].
    apply join_lt; [apply lit_lt|].
    induction IH; cbn [List.map]; constructor; auto.
  - destruct d as [|x d]; [apply lit_lt|].
    change (json_text frepr (VDict (x :: d)))
      with (ch "{" ::
              join (lit ", ")
                (List.map (fun kv : str * value =>
                             let (k, v) := kv in
                             encode_basestring_ascii k ++ lit ": " ++ json_text frepr v)
                   (x :: d)) ++ [ch "}"]).
    constructor; [vm_compute; reflexivity|].
    apply Forall_app; split; [|repeat constructor; vm_compute; reflexivity].
    apply join_lt; [apply lit_lt|].
    induction IH as [|[k v] d' Hv _ IH']; cbn [List.map]; constructor; auto.
    apply Forall_app; split; [apply ascii_lt_256, encode_basestring_ascii_lt|].
    apply Forall_app; split; [apply lit_lt | exact Hv].
Qed.

(** [json.dumps] writes that text, unless it meets an integer over the
    limit. *)
Lemma mapM_if {A B} (f : A -> Result B) (p : A -> bool) (g : A -> B) (e : exn)
    (l : list A) :
  Forall (fun x => f x = if p x then Ok (g x) else Raise e) l ->
  mapM f l = if forallb p l then Ok (List.map g l) else Raise e.
Proof.
  induction 1 as [|x l Hx _ IH]; cbn [mapM forallb List.map]; [reflexivity|].
  rewrite Hx. destruct (p x); cbn [rbind andb]; [|reflexivity].
  rewrite IH. destruct (forallb p l); reflexivity.
Qed.

Lemma dumps_json_text (frepr : spec_float -> string) (limit : N) (o : value) :
  dumps frepr limit o
  = if within_limit limit o then Ok (json_text frepr o) else Raise DigitLimitError.
Proof.
  induction o as [| b | z | f | s | l IH | d IH] using value_nested_ind;
    try reflexivity.
  - destruct b; reflexivity.
  - cbn [dumps within_limit json_text]. unfold str_of_int.
    destruct (over_limit limit _); reflexivity.
  - destruct l as [|x l]; [reflexivity|].
    change (dumps frepr limit (VList (x :: l)))
      with (let! parts := mapM (dumps frepr limit) (x :: l) in
            Ok (ch "[" :: join (lit ", ") parts ++ [ch "]"])).
    rewrite (mapM_if _ _ _ _ _ IH).
    change (within_limit limit (VList (x :: l)))
      with (forallb (within_limit limit) (x :: l)).
    destruct (forallb (within_limit limit) (x :: l)); reflexivity.
  - destruct d as [|kv d]; [reflexivity|].
    change (dumps frepr limit (VDict (kv :: d)))
      with (let! parts :=
              mapM (fun kv : str * value =>
                      let (k, v) := kv in
                      let! text := dumps frepr limit v in
                      Ok (encode_basestring_ascii k ++ lit ": " ++ text)) (kv :: d) in
            Ok (ch "{" :: join (lit ", ") parts ++ [ch "}"])).
    rewrite (mapM_if _ (fun kv : str * value => within_limit limit kv.2)
               (fun kv : str * value =>
                  let (k, v) := kv in
                  encode_basestring_ascii k ++ lit ": " ++ json_text frepr v)
               DigitLimitError).
    + change (within_limit limit (VDict (kv :: d)))
        with (forallb (fun kv : str * value => within_limit limit kv.2) (kv :: d)).
      destruct (forallb _ (kv :: d)); reflexivity.
    + eapply Forall_impl; [exact IH|]. intros [k v] Hv. cbn [snd] in *.
      rewrite Hv. destruct (within_limit limit v); reflexivity.
Qed.

Lemma dumps_ok (frepr : spec_float -> string) (limit : N) (o : value) (text : str) :
  dumps frepr limit o = Ok text -> text = json_text frepr o.
Proof.
  rewrite dumps_json_text. destruct (within_limit limit o); congruence.
Qed.

Lemma utf8_encode_total (s : str) :
  Forall (fun c => (c < 256)%N) s -> exists bs, utf8_encode s = Ok bs.
Proof.
  induction 1 as [|c s Hc _ [bs IH]]; simpl; [eauto|].
  rewrite IH. unfold utf8_encode_char.
  destruct (c <? 128)%N; [simpl; eauto|].
  destruct (c <? 2048)%N eqn:E; [simpl; eauto|].
  apply N.ltb_ge in E. lia.
Qed.

Lemma urlencode_dumps_total (frepr : spec_float -> string) (limit : N) (o : value)
    (text : str) :
  dumps frepr limit o = Ok text -> exists s, urlencode text = Ok s.
Proof.
  intros ->%dumps_ok. unfold urlencode, quote.
  destruct (utf8_encode_total _ (json_text_lt frepr o)) as [bs ->]. simpl. eauto.
Qed.

(** ** One run of [mastQuery] *)

Lemma requestString_ok (env : Env) (o : value) (text : str) :
  json_of env o = Ok text -> urlencode text = Ok (requestString env o).
Proof.
  intros H. unfold requestString. rewrite H. cbn [rbind].
  destruct (urlencode_dumps_total _ _ o text H) as [s ->]. reflexivity.
Qed.

(** The numbers of [sys.version_info] are far below every limit. *)
Lemma str_of_int_byte (limit : N) (b : Byte.byte) :
  str_of_int limit (int_of_byte b) = Ok (decimal (int_of_byte b)).
Proof. destruct b; reflexivity. Qed.

Lemma version_ok (env : Env) :
  (let '(major, minor, micro) := version_info env in
   let! parts := mapM (str_of_int (int_max_str_digits env))
                   (int_of_byte <$> [major; minor; micro]) in
   Ok (join (lit ".") parts)) = Ok (version env).
Proof.
  unfold version. destruct (version_info env) as [[major minor] micro].
  cbn [fmap list_fmap mapM]. rewrite !str_of_int_byte. reflexivity.
Qed.

Lemma lookup_snoc {A} (l : list A) (x : A) : (l ++ [x]) !! length l = Some x.
Proof. apply list_lookup_middle. reflexivity. Qed.

Lemma insert_snoc {A} (l : list A) (x y : A) : <[length l := y]> (l ++ [x]) = l ++ [y].
Proof.
  rewrite insert_app_r_alt by lia. rewrite Nat.sub_diag. reflexivity.
Qed.

Lemma mastQuery_run (env : Env) (request : nat) (w : World) :
  mastQuery env request w = mastQuery_outcome env (object_at w request) w.
Proof.
  unfold mastQuery, mastQuery_outcome, after_query.
  unfold bind at 1. unfold lift at 1. rewrite version_ok.
  fold (mast_headers env).
  unfold bind at 1. unfold deref at 1.
  unfold bind at 1. unfold lift at 1. fold (json_of env (object_at w request)).
  destruct (json_of env (object_at w request)) as [text|e] eqn:Hjson; [|reflexivity].
  unfold bind at 1. unfold lift at 1. rewrite (requestString_ok _ _ _ Hjson).
  unfold bind at 1. unfold HTTPSConnection at 1.
  set (rs := requestString env (object_at w request)).
  unfold conn_request, conn_getresponse, conn_close, resp_read, resp_getheaders,
    get_conn, set_conn, log, bind, ret, raise, lift.
  cbn [heap conns trace fst snd].
  rewrite !lookup_snoc. cbn [heap conns trace conn_endpoint].
  fold mast_endpoint. fold (mast_request env rs).
  destruct (network env mast_endpoint (mast_request env rs))
    as [e|e|e|will_close head [bs|e]];
    try (destruct (is_ConnectionError e) eqn:He);
    try destruct will_close;
    cbn [heap conns trace conn_endpoint conn_pending conn_open fst snd negb];
    rewrite ?insert_snoc, ?lookup_snoc, ?He;
    cbn [heap conns trace conn_endpoint conn_pending conn_open fst snd];
    rewrite ?insert_snoc, ?lookup_snoc, ?He;
    cbn [heap conns trace conn_endpoint conn_pending conn_open fst snd negb];
    rewrite ?insert_snoc, ?lookup_snoc;
    cbn [heap conns trace conn_endpoint conn_pending conn_open fst snd];
    rewrite ?insert_snoc, ?lookup_snoc;
    cbn [heap conns trace conn_endpoint conn_pending conn_open fst snd];
    rewrite ?insert_snoc, ?lookup_snoc, <- ?app_assoc; reflexivity.
Qed.

(** ** One run of [resolve] *)

(** The request of [resolve] holds no number: [json.dumps] never refuses
    it. *)
Lemma json_of_resolverRequest (env : Env) (name : str) :
  json_of env (resolverRequest name)
  = Ok (json_text (float_repr env) (resolverRequest name)).
Proof. unfold json_of. rewrite dumps_json_text. reflexivity. Qed.

Lemma object_at_new (w : World) (o : value) :
  object_at (with_object w o) (length (heap w)) = o.
Proof. unfold object_at, with_object. cbn [heap]. rewrite lookup_snoc. reflexivity. Qed.

Lemma resolve_run (env : Env) (name : str) (w : World) :
  resolve env name w =
    (let! obj := decoded_response env name in coordinate_of name obj,
     (mastQuery_outcome env (resolverRequest name)
        (with_object w (resolverRequest name))).2).
Proof.
  unfold resolve. fold (resolverRequest name).
  unfold bind at 1. unfold new_object at 1. fold (with_object w (resolverRequest name)).
  unfold bind at 1. rewrite mastQuery_run, object_at_new.
  unfold decoded_response, response_text, lookup_request, mastQuery_outcome.
  rewrite json_of_resolverRequest.
  destruct (network env mast_endpoint
              (mast_request env (requestString env (resolverRequest name))))
    as [e|e|e|will_close head [bs|e]]; try reflexivity.
  destruct (utf8_decode bs) as [content|e]; [|reflexivity].
  cbn [fst snd rbind].
  unfold bind at 1. unfold lift at 1.
  destruct (loads (int_max_str_digits env) content) as [obj|e]; [|reflexivity].
  cbn [rbind]. unfold try_except_IndexError, bind, lift, ret, raise, coordinate_of.
  fold (first_coordinate obj (lit "ra")). fold (first_coordinate obj (lit "decl")).
  fold (unknown_object name).
  destruct (first_coordinate obj (lit "ra")) as [ra|[]]; try reflexivity.
  destruct (first_coordinate obj (lit "decl")) as [dec|[]]; reflexivity.
Qed.

Lemma resolve_result (env : Env) (name : str) (w : World) :
  (resolve env name w).1 = let! obj := decoded_response env name in coordinate_of name obj.
Proof. rewrite resolve_run. reflexivity. Qed.

(** ** The unknown object *)

Lemma coordinate_of_empty (name : str) (obj : value) :
  getitem obj KEY = Ok (VList []) ->
  coordinate_of name obj = Raise (unknown_object name).
Proof.
  intros H. unfold coordinate_of, first_coordinate. fold KEY. rewrite H. reflexivity.
Qed.

(** C1.  Whenever the decoded response holds an empty array under
    ['resolvedCoordinate'], [resolve name] raises the [ValueError] whose
    message is [Unknown object '<name>'], with the name exactly as it was
    given; and against a service that answers [{"resolvedCoordinate":[]}],
    [resolve "Nonexistent Object"] raises it with that name. *)
Theorem resolve_unknown_object :
  (forall (env : Env) (name : str) (w : World) (obj : value),
      decoded_response env name = Ok obj ->
      getitem obj (VStr (lit "resolvedCoordinate")) = Ok (VList []) ->
      (resolve env name w).1
      = Raise (ValueError (lit "Unknown object '" ++ name ++ lit "'")))
  /\ (forall (env : Env) (w : World),
         response_text env (lit "Nonexistent Object")
         = Ok (qlit "{'resolvedCoordinate':[]}") ->
         (resolve env (lit "Nonexistent Object") w).1
         = Raise (ValueError (lit "Unknown object 'Nonexistent Object'"))).
Proof.
  split.
  - intros env name w obj Hobj Hkey.
    rewrite resolve_result, Hobj. cbn [rbind].
    apply coordinate_of_empty. exact Hkey.
  - intros env w Htxt.
    rewrite resolve_result. unfold decoded_response. rewrite Htxt.
    vm_compute. reflexivity.
Qed.

Lemma resolve_unknown_object_witness :
  (resolve (stub (qlit "{'resolvedCoordinate':[]}")) (lit "Some Name") empty_world).1
  = Raise (ValueError (lit "Unknown object '" ++ lit "Some Name" ++ lit "'"))
  /\ (resolve (stub (qlit "{'resolvedCoordinate':[]}")) (lit "Nonexistent Object")
        empty_world).1
     = Raise (ValueError (lit "Unknown object 'Nonexistent Object'")).
Proof.
  split.
  - apply (proj1 resolve_unknown_object
             (stub (qlit "{'resolvedCoordinate':[]}")) (lit "Some Name") empty_world
             (VDict [(lit "resolvedCoordinate", VList [])])).
    + vm_compute. reflexivity.
    + vm_compute. reflexivity.
  - apply (proj2 resolve_unknown_object). vm_compute. reflexivity.
Defined.

(** ** The resolved object *)

Lemma coordinate_of_first (name : str) (obj first : value) (rest : list value)
    (ra dec : value) :
  getitem obj KEY = Ok (VList (first :: rest)) ->
  getitem first (VStr (lit "ra")) = Ok ra ->
  getitem first (VStr (lit "decl")) = Ok dec ->
  coordinate_of name obj = Ok (ra, dec).
Proof.
  intros H Hra Hdec. unfold coordinate_of, first_coordinate. fold KEY. rewrite H.
  cbn [rbind]. change (getitem (VList (first :: rest)) (VInt 0)) with (Ok first).
  cbn [rbind]. rewrite Hra, Hdec. reflexivity.
Qed.

(** C2.  Whenever the decoded response holds a non-empty array under
    ['resolvedCoordinate'] whose first element carries the fields ['ra'] and
    ['decl'], [resolve name] returns the pair of these two values; and
    against a service that answers
    [{"resolvedCoordinate":[{"ra":150.0,"decl":65.0}]}], [resolve "KQ UMa"]
    returns the floats 150.0 and 65.0. *)
Theorem resolve_first_entry :
  (forall (env : Env) (name : str) (w : World) (obj first : value)
          (rest : list value) (ra dec : value),
      decoded_response env name = Ok obj ->
      getitem obj (VStr (lit "resolvedCoordinate")) = Ok (VList (first :: rest)) ->
      getitem first (VStr (lit "ra")) = Ok ra ->
      getitem first (VStr (lit "decl")) = Ok dec ->
      (resolve env name w).1 = Ok (ra, dec))
  /\ (forall (env : Env) (w : World),
         response_text env (lit "KQ UMa")
         = Ok (qlit "{'resolvedCoordinate':[{'ra':150.0,'decl':65.0}]}") ->
         (resolve env (lit "KQ UMa") w).1
         = Ok (VFloat (S754_finite false (150 * 2 ^ 45) (-45)),
               VFloat (S754_finite false (65 * 2 ^ 46) (-46)))).
Proof.
  split.
  - intros env name w obj first rest ra dec Hobj Hkey Hra Hdec.
    rewrite resolve_result, Hobj. cbn [rbind].
    eapply coordinate_of_first; eassumption.
  - intros env w Htxt.
    rewrite resolve_result. unfold decoded_response. rewrite Htxt.
    vm_compute. reflexivity.
Qed.

Lemma resolve_first_entry_witness :
  (resolve (stub (qlit "{'resolvedCoordinate':[{'ra':12,'decl':-7},{'ra':0}]}"))
     (lit "M 31") empty_world).1
  = Ok (VInt 12, VInt (-7))
  /\ (resolve (stub (qlit "{'resolvedCoordinate':[{'ra':150.0,'decl':65.0}]}"))
        (lit "KQ UMa") empty_world).1
     = Ok (VFloat (S754_finite false (150 * 2 ^ 45) (-45)),
           VFloat (S754_finite false (65 * 2 ^ 46) (-46))).
Proof.
  split.
  - apply (proj1 resolve_first_entry
             (stub (qlit "{'resolvedCoordinate':[{'ra':12,'decl':-7},{'ra':0}]}"))
             (lit "M 31") empty_world
             (VDict [(lit "resolvedCoordinate",
                      VList [VDict [(lit "ra", VInt 12); (lit "decl", VInt (-7))];
                             VDict [(lit "ra", VInt 0)]])])
             (VDict [(lit "ra", VInt 12); (lit "decl", VInt (-7))])
             [VDict [(lit "ra", VInt 0)]]).
    + vm_compute. reflexivity.
    + vm_compute. reflexivity.
    + vm_compute. reflexivity.
    + vm_compute. reflexivity.
  - apply (proj2 resolve_first_entry). vm_compute. reflexivity.
Defined.

(** ** No coordinate without an entry *)

Lemma seq_index_0 {A} (l : list A) :
  seq_index l 0 = match l with
                  | [] => Raise IndexError
                  | x :: _ => Ok x
                  end.
Proof.
  destruct l as [|x l]; [reflexivity|].
  unfold seq_index. cbn [length]. rewrite Nat2Z.inj_succ.
  change (0 <? 0)%Z with false. cbv iota.
  change (0 <=? 0)%Z with true.
  destruct (0 <? Z.succ (Z.of_nat (length l)))%Z eqn:E; [reflexivity|].
  apply Z.ltb_ge in E. lia.
Qed.

(** Where [first_coordinate] succeeds, it reads a field of the first element
    of a non-empty array. *)
Lemma first_coordinate_ok (obj : value) (field : str) (x : value) :
  first_coordinate obj field = Ok x ->
  exists first rest,
    getitem obj KEY = Ok (VList (first :: rest))
    /\ getitem first (VStr field) = Ok x.
Proof.
  unfold first_coordinate. fold KEY.
  destruct (getitem obj KEY) as [a|e]; [|discriminate]. cbn [rbind].
  destruct a as [| b | z | f | s | l | d]; try discriminate.
  - (* a string: one character, which has no field *)
    cbn [getitem]. rewrite seq_index_0. destruct s; discriminate.
  - cbn [getitem]. rewrite seq_index_0. destruct l as [|first rest]; [discriminate|].
    cbn [rbind]. intros H. exists first, rest. split; [reflexivity | exact H].
Qed.

Lemma coordinate_of_ok (name : str) (obj ra dec : value) :
  coordinate_of name obj = Ok (ra, dec) ->
  first_coordinate obj (lit "ra") = Ok ra
  /\ first_coordinate obj (lit "decl") = Ok dec.
Proof.
  unfold coordinate_of.
  destruct (first_coordinate obj (lit "ra")) as [x|[]]; try discriminate.
  destruct (first_coordinate obj (lit "decl")) as [y|[]]; try discriminate.
  intros [= -> ->]. split; reflexivity.
Qed.

Lemma resolve_ok_inv (env : Env) (name : str) (w : World) (ra dec : value) :
  (resolve env name w).1 = Ok (ra, dec) ->
  exists obj first rest,
    decoded_response env name = Ok obj
    /\ getitem obj KEY = Ok (VList (first :: rest))
    /\ getitem first (VStr (lit "ra")) = Ok ra
    /\ getitem first (VStr (lit "decl")) = Ok dec.
Proof.
  rewrite resolve_result.
  destruct (decoded_response env name) as [obj|e]; [|discriminate].
  cbn [rbind]. intros H. apply coordinate_of_ok in H as [Hra Hdec].
  apply first_coordinate_ok in Hra as (first & rest & Hkey & Hra).
  apply first_coordinate_ok in Hdec as (first' & rest' & Hkey' & Hdec).
  rewrite Hkey in Hkey'. injection Hkey' as <- <-.
  exists obj, first, rest. auto.
Qed.

(** C3.  [resolve] returns a pair only when the response decodes to an
    object whose ['resolvedCoordinate'] is an array with a first entry, and
    the pair is read from that entry; whenever there is no such response
    (the array is absent, empty, or nothing decodable came back), [resolve]
    returns no pair and raises instead. *)
Theorem resolve_coordinate_needs_entry :
  (forall (env : Env) (name : str) (w : World) (ra dec : value),
      (resolve env name w).1 = Ok (ra, dec) ->
      exists obj first rest,
        decoded_response env name = Ok obj
        /\ getitem obj (VStr (lit "resolvedCoordinate")) = Ok (VList (first :: rest))
        /\ getitem first (VStr (lit "ra")) = Ok ra
        /\ getitem first (VStr (lit "decl")) = Ok dec)
  /\ (forall (env : Env) (name : str) (w : World),
         (forall obj first rest,
             decoded_response env name = Ok obj ->
             getitem obj (VStr (lit "resolvedCoordinate"))
             <> Ok (VList (first :: rest))) ->
         exists e, (resolve env name w).1 = Raise e).
Proof.
  split.
  - intros env name w ra dec H. apply resolve_ok_inv in H. exact H.
  - intros env name w Hno.
    destruct (resolve env name w).1 as [[ra dec]|e] eqn:E; [|eauto].
    apply resolve_ok_inv in E as (obj & first & rest & Hobj & Hkey & _).
    exfalso. exact (Hno obj first rest Hobj Hkey).
Qed.

Lemma resolve_coordinate_needs_entry_witness :
  (exists obj first rest,
      decoded_response (stub (qlit "{'resolvedCoordinate':[{'ra':1,'decl':2}]}"))
        (lit "M 31") = Ok obj
      /\ getitem obj (VStr (lit "resolvedCoordinate")) = Ok (VList (first :: rest))
      /\ getitem first (VStr (lit "ra")) = Ok (VInt 1)
      /\ getitem first (VStr (lit "decl")) = Ok (VInt 2))
  /\ (exists e, (resolve (stub (qlit "{'status':'none'}")) (lit "M 31") empty_world).1
                = Raise e).
Proof.
  split.
  - apply (proj1 resolve_coordinate_needs_entry
             (stub (qlit "{'resolvedCoordinate':[{'ra':1,'decl':2}]}"))
             (lit "M 31") empty_world).
    vm_compute. reflexivity.
  - apply (proj2 resolve_coordinate_needs_entry).
    intros obj first rest Hobj. vm_compute in Hobj. injection Hobj as <-.
    vm_compute. discriminate.
Defined.

(** ** Malformed responses *)

Lemma getitem_no_field (v : value) (k : str) :
  has_field v k = false ->
  getitem v (VStr k) = Raise TypeError \/ getitem v (VStr k) = Raise (KeyError (VStr k)).
Proof.
  destruct v as [| b | z | f | s | l | d]; cbn [has_field getitem]; auto.
  destruct (dict_get d k); [discriminate | auto].
Qed.

Lemma getitem_field (v : value) (k : str) :
  has_field v k = true -> exists x, getitem v (VStr k) = Ok x.
Proof.
  destruct v as [| b | z | f | s | l | d]; cbn [has_field getitem]; try discriminate.
  destruct (dict_get d k) as [x|]; [eauto | discriminate].
Qed.

(** A subscript with a string never fails with [IndexError]. *)
Lemma getitem_str_not_IndexError (v : value) (k : str) :
  getitem v (VStr k) <> Raise IndexError.
Proof.
  destruct v as [| b | z | f | s | l | d]; cbn [getitem]; try discriminate.
  destruct (dict_get d k); discriminate.
Qed.

(** The exceptions of a subscript are [IndexError], [KeyError] and
    [TypeError]. *)
Lemma getitem_not_ValueError (v key : value) (m : str) :
  getitem v key <> Raise (ValueError m).
Proof.
  assert (Hseq : forall A (l : list A) i, seq_index l i <> Raise (ValueError m)).
  { intros A l i. unfold seq_index.
    destruct ((0 <=? _) && _)%Z; [|discriminate].
    destruct (l !! _); discriminate. }
  destruct v as [| b | z | f | s | l | d], key as [| b' | z' | f' | s' | l' | d'];
    cbn [getitem]; try discriminate; try apply Hseq;
    try (destruct (dict_get d s'); discriminate);
    match goal with
    | |- context [seq_index ?l ?i] =>
        pose proof (Hseq _ l i); destruct (seq_index l i); cbn [rbind]; congruence
    end.
Qed.

(** [first_coordinate] fails with [IndexError] exactly when index 0 is out
    of range on the value under ['resolvedCoordinate']: an empty array, or
    an empty string. *)
Lemma first_coordinate_IndexError (obj : value) (field : str) :
  first_coordinate obj field = Raise IndexError <->
  getitem obj KEY = Ok (VList []) \/ getitem obj KEY = Ok (VStr []).
Proof.
  unfold first_coordinate. fold KEY. split.
  - destruct (getitem obj KEY) as [a|e] eqn:E.
    + cbn [rbind].
      destruct a as [| b | z | f | s | l | d]; try discriminate.
      * cbn [getitem]. rewrite seq_index_0. destruct s; [auto | discriminate].
      * cbn [getitem]. rewrite seq_index_0. destruct l as [|first rest]; [auto|].
        cbn [rbind]. intros H. destruct (getitem_str_not_IndexError _ _ H).
    + cbn [rbind]. intros [= ->]. destruct (getitem_str_not_IndexError _ _ E).
  - intros [-> | ->]; reflexivity.
Qed.

Lemma first_coordinate_not_ValueError (obj : value) (field m : str) :
  first_coordinate obj field <> Raise (ValueError m).
Proof.
  unfold first_coordinate.
  destruct (getitem obj (VStr (lit "resolvedCoordinate"))) as [a|e] eqn:Ea.
  - cbn [rbind]. destruct (getitem a (VInt 0)) as [b|e] eqn:Eb.
    + cbn [rbind]. apply getitem_not_ValueError.
    + cbn [rbind]. intros [= ->]. exact (getitem_not_ValueError _ _ _ Eb).
  - cbn [rbind]. intros [= ->]. exact (getitem_not_ValueError _ _ _ Ea).
Qed.

Lemma coordinate_of_ValueError (name : str) (obj : value) (m : str) :
  coordinate_of name obj = Raise (ValueError m) ->
  ValueError m = unknown_object name
  /\ (getitem obj KEY = Ok (VList []) \/ getitem obj KEY = Ok (VStr [])).
Proof.
  unfold coordinate_of.
  destruct (first_coordinate obj (lit "ra")) as [x|e] eqn:Era.
  - destruct (first_coordinate obj (lit "decl")) as [y|e] eqn:Edec; [discriminate|].
    destruct e; try discriminate.
    + intros [= <-]. split; [reflexivity|].
      apply first_coordinate_IndexError in Edec. exact Edec.
    + intros [= ->]. destruct (first_coordinate_not_ValueError _ _ _ Edec).
  - destruct e; try discriminate.
    + intros [= <-]. split; [reflexivity|].
      apply first_coordinate_IndexError in Era. exact Era.
    + intros [= ->]. destruct (first_coordinate_not_ValueError _ _ _ Era).
Qed.

Lemma coordinate_of_first_malformed (name : str) (obj first : value)
    (rest : list value) :
  getitem obj KEY = Ok (VList (first :: rest)) ->
  has_field first (lit "ra") = false \/ has_field first (lit "decl") = false ->
  coordinate_of name obj = Raise TypeError
  \/ coordinate_of name obj = Raise (KeyError (VStr (lit "ra")))
  \/ coordinate_of name obj = Raise (KeyError (VStr (lit "decl"))).
Proof.
  intros Hkey Hlacks. unfold coordinate_of, first_coordinate. fold KEY.
  rewrite Hkey. cbn [rbind].
  change (getitem (VList (first :: rest)) (VInt 0)) with (Ok first). cbn [rbind].
  destruct (has_field first (lit "ra")) eqn:Hra.
  - destruct Hlacks as [|Hdec]; [discriminate|].
    apply getitem_field in Hra as [x ->].
    apply getitem_no_field in Hdec as [-> | ->]; auto.
  - apply getitem_no_field in Hra as [-> | ->]; auto.
Qed.

Lemma coordinate_of_no_key (name : str) (obj : value) :
  has_field obj (lit "resolvedCoordinate") = false ->
  coordinate_of name obj = Raise TypeError
  \/ coordinate_of name obj = Raise (KeyError KEY).
Proof.
  intros H. unfold coordinate_of, first_coordinate. fold KEY.
  apply getitem_no_field in H. fold KEY in H. destruct H as [-> | ->]; auto.
Qed.

(** C9, as the program has it.  A response whose ['resolvedCoordinate']
    array is non-empty but whose first element lacks ['ra'] or ['decl'], and
    a response without the key ['resolvedCoordinate'], make [resolve] raise
    a [TypeError] or the [KeyError] of the missing key, never the
    [ValueError].  The [ValueError] is raised exactly when index 0 is out of
    range on the value under ['resolvedCoordinate'], which is then an empty
    array or an empty string. *)
Theorem resolve_malformed_response :
  (forall (env : Env) (name : str) (w : World) (obj first : value)
          (rest : list value),
      decoded_response env name = Ok obj ->
      getitem obj (VStr (lit "resolvedCoordinate")) = Ok (VList (first :: rest)) ->
      has_field first (lit "ra") = false \/ has_field first (lit "decl") = false ->
      (resolve env name w).1 = Raise TypeError
      \/ (resolve env name w).1 = Raise (KeyError (VStr (lit "ra")))
      \/ (resolve env name w).1 = Raise (KeyError (VStr (lit "decl"))))
  /\ (forall (env : Env) (name : str) (w : World) (obj : value),
         decoded_response env name = Ok obj ->
         has_field obj (lit "resolvedCoordinate") = false ->
         (resolve env name w).1 = Raise TypeError
         \/ (resolve env name w).1
            = Raise (KeyError (VStr (lit "resolvedCoordinate"))))
  /\ (forall (env : Env) (name : str) (w : World) (obj : value) (m : str),
         decoded_response env name = Ok obj ->
         ((resolve env name w).1 = Raise (ValueError m) <->
          m = lit "Unknown object '" ++ name ++ lit "'"
          /\ (getitem obj (VStr (lit "resolvedCoordinate")) = Ok (VList [])
              \/ getitem obj (VStr (lit "resolvedCoordinate")) = Ok (VStr [])))).
Proof.
  split; [|split].
  - intros env name w obj first rest Hobj Hkey Hlacks.
    rewrite resolve_result, Hobj. cbn [rbind].
    eapply coordinate_of_first_malformed; eassumption.
  - intros env name w obj Hobj Hlacks.
    rewrite resolve_result, Hobj. cbn [rbind].
    apply coordinate_of_no_key. exact Hlacks.
  - intros env name w obj m Hobj.
    rewrite resolve_result, Hobj. cbn [rbind]. split.
    + intros H. apply coordinate_of_ValueError in H as [Hm Hkey].
      injection Hm as ->. auto.
    + intros [-> Hkey]. unfold coordinate_of.
      rewrite (proj2 (first_coordinate_IndexError obj (lit "ra")) Hkey). reflexivity.
Qed.

(** A response that is not the documented one (an array under
    ['resolvedCoordinate']) and is still reported as an unknown object: the
    value under the key is the empty string, on which index 0 is out of
    range as well. *)
Lemma resolve_empty_string_unknown :
  decoded_response (stub (qlit "{'resolvedCoordinate':''}")) (lit "M 31")
  = Ok (VDict [(lit "resolvedCoordinate", VStr [])])
  /\ (resolve (stub (qlit "{'resolvedCoordinate':''}")) (lit "M 31") empty_world).1
     = Raise (ValueError (lit "Unknown object 'M 31'")).
Proof. split; vm_compute; reflexivity. Qed.

Lemma resolve_malformed_response_witness :
  ((resolve (stub (qlit "{'resolvedCoordinate':[{'ra':1.5}]}")) (lit "M 31")
      empty_world).1 = Raise TypeError
   \/ (resolve (stub (qlit "{'resolvedCoordinate':[{'ra':1.5}]}")) (lit "M 31")
         empty_world).1 = Raise (KeyError (VStr (lit "ra")))
   \/ (resolve (stub (qlit "{'resolvedCoordinate':[{'ra':1.5}]}")) (lit "M 31")
         empty_world).1 = Raise (KeyError (VStr (lit "decl"))))
  /\ ((resolve (stub (qlit "{'status':'error'}")) (lit "M 31") empty_world).1
      = Raise TypeError
      \/ (resolve (stub (qlit "{'status':'error'}")) (lit "M 31") empty_world).1
         = Raise (KeyError (VStr (lit "resolvedCoordinate"))))
  /\ ((resolve (stub (qlit "{'resolvedCoordinate':[]}")) (lit "M 31") empty_world).1
      = Raise (ValueError (lit "Unknown object 'M 31'")) <->
      lit "Unknown object 'M 31'" = lit "Unknown object '" ++ lit "M 31" ++ lit "'"
      /\ (getitem (VDict [(lit "resolvedCoordinate", VList [])])
            (VStr (lit "resolvedCoordinate")) = Ok (VList [])
          \/ getitem (VDict [(lit "resolvedCoordinate", VList [])])
               (VStr (lit "resolvedCoordinate")) = Ok (VStr []))).
Proof.
  split; [|split].
  - apply (proj1 resolve_malformed_response
             (stub (qlit "{'resolvedCoordinate':[{'ra':1.5}]}")) (lit "M 31")
             empty_world
             (VDict [(lit "resolvedCoordinate",
                      VList [VDict [(lit "ra", VFloat (S754_finite false (3 * 2 ^ 51) (-52)))]])])
             (VDict [(lit "ra", VFloat (S754_finite false (3 * 2 ^ 51) (-52)))]) []).
    + vm_compute. reflexivity.
    + vm_compute. reflexivity.
    + right. vm_compute. reflexivity.
  - apply (proj1 (proj2 resolve_malformed_response)
             (stub (qlit "{'status':'error'}")) (lit "M 31") empty_world
             (VDict [(lit "status", VStr (lit "error"))])).
    + vm_compute. reflexivity.
    + vm_compute. reflexivity.
  - apply (proj2 (proj2 resolve_malformed_response)
             (stub (qlit "{'resolvedCoordinate':[]}")) (lit "M 31") empty_world
             (VDict [(lit "resolvedCoordinate", VList [])])).
    vm_compute. reflexivity.
Defined.

(** ** Ranges *)

(** A service that resolves a name to a right ascension of 400 degrees:
    [resolve] returns it as it is. *)
Lemma resolve_out_of_range :
  (resolve (stub (qlit "{'resolvedCoordinate':[{'ra':400.0,'decl':65.0}]}"))
     (lit "KQ UMa") empty_world).1
  = Ok (VFloat (S754_finite false (400 * 2 ^ 44) (-44)),
        VFloat (S754_finite false (65 * 2 ^ 46) (-46)))
  /\ ra_in_range (VFloat (S754_finite false (400 * 2 ^ 44) (-44))) = false.
Proof. split; vm_compute; reflexivity. Qed.

(** C5, as the program has it.  [resolve] checks no range: it returns the
    ['ra'] and ['decl'] of the first entry unchanged.  So when the service
    resolves a name to an entry with [0 <= ra < 360] and [-90 <= decl <= 90],
    the pair returned satisfies the same bounds. *)
Theorem resolve_in_range (env : Env) (name : str) (w : World) (obj first : value)
    (rest : list value) (r d : value) :
  decoded_response env name = Ok obj ->
  getitem obj (VStr (lit "resolvedCoordinate")) = Ok (VList (first :: rest)) ->
  getitem first (VStr (lit "ra")) = Ok r ->
  getitem first (VStr (lit "decl")) = Ok d ->
  ra_in_range r = true ->
  decl_in_range d = true ->
  exists ra dec,
    (resolve env name w).1 = Ok (ra, dec)
    /\ ra = r /\ dec = d
    /\ ra_in_range ra = true /\ decl_in_range dec = true.
Proof.
  intros Hobj Hkey Hra Hdec Hr Hd. exists r, d.
  rewrite resolve_result, Hobj. cbn [rbind].
  rewrite (coordinate_of_first name obj first rest r d Hkey Hra Hdec). auto.
Qed.

Lemma resolve_in_range_witness :
  exists ra dec,
    (resolve (stub (qlit "{'resolvedCoordinate':[{'ra':150.0,'decl':-90}]}"))
       (lit "KQ UMa") empty_world).1 = Ok (ra, dec)
    /\ ra = VFloat (S754_finite false (150 * 2 ^ 45) (-45)) /\ dec = VInt (-90)
    /\ ra_in_range ra = true /\ decl_in_range dec = true.
Proof.
  apply (resolve_in_range
           (stub (qlit "{'resolvedCoordinate':[{'ra':150.0,'decl':-90}]}"))
           (lit "KQ UMa") empty_world
           (VDict [(lit "resolvedCoordinate",
                    VList [VDict [(lit "ra", VFloat (S754_finite false (150 * 2 ^ 45) (-45)));
                                  (lit "decl", VInt (-90))]])])
           (VDict [(lit "ra", VFloat (S754_finite false (150 * 2 ^ 45) (-45)));
                   (lit "decl", VInt (-90))]) []);
    vm_compute; reflexivity.
Defined.

(** ** The exchange with the network *)

Lemma json_of_cases (env : Env) (o : value) :
  json_of env o
  = if within_limit (int_max_str_digits env) o
    then Ok (json_text (float_repr env) o)
    else Raise DigitLimitError.
Proof. apply dumps_json_text. Qed.

(** A run of [mastQuery] on an object [json.dumps] refuses ends there, and
    nothing has happened. *)
Lemma mastQuery_outcome_refused (env : Env) (o : value) (w : World) :
  within_limit (int_max_str_digits env) o = false ->
  mastQuery_outcome env o w = (Raise DigitLimitError, w).
Proof.
  intros H. unfold mastQuery_outcome. rewrite json_of_cases, H. reflexivity.
Qed.

(** Every other run of [mastQuery] adds to the trace its one request and
    then calls that are not requests, and adds one connection object. *)
Lemma mastQuery_outcome_world (env : Env) (o : value) (w : World) :
  within_limit (int_max_str_digits env) o = true ->
  exists is_open pending evs,
    (mastQuery_outcome env o w).2 = after_query env o w is_open pending evs
    /\ requests_of evs = [].
Proof.
  intros H. unfold mastQuery_outcome. rewrite json_of_cases, H.
  destruct (network env mast_endpoint (mast_request env (requestString env o)))
    as [e|e|e|will_close head [bs|e]]; try (do 3 eexists; split; reflexivity).
  destruct (utf8_decode bs); do 3 eexists; split; reflexivity.
Qed.

Lemma within_limit_resolverRequest (limit : N) (name : str) :
  within_limit limit (resolverRequest name) = true.
Proof. reflexivity. Qed.

Lemma events_since_after_query (env : Env) (o : value) (w : World) (is_open : bool)
    (pending : option Reply) (evs : list Event) :
  events_since w (after_query env o w is_open pending evs)
  = EvRequest (length (conns w)) (mast_request env (requestString env o)) :: evs.
Proof.
  unfold events_since, after_query. cbn [trace].
  rewrite drop_app_length. reflexivity.
Qed.

Lemma events_since_refl (w : World) : events_since w w = [].
Proof. unfold events_since. apply drop_all. Qed.

(** A request that holds an integer of 4301 digits, in an interpreter with
    the default limit of 4300: [json.dumps] raises, no connection object is
    created and nothing is sent. *)
Lemma mastQuery_no_post :
  mastQuery (stub []) 0 big_request_world = (Raise DigitLimitError, big_request_world)
  /\ requests_of (events_since big_request_world
                    (mastQuery (stub []) 0 big_request_world).2) = []
  /\ conns (mastQuery (stub []) 0 big_request_world).2 = [].
Proof.
  assert (H : mastQuery (stub []) 0 big_request_world
              = (Raise DigitLimitError, big_request_world)).
  { rewrite mastQuery_run. apply mastQuery_outcome_refused.
    vm_compute. reflexivity. }
  rewrite H. cbn [snd]. rewrite events_since_refl. repeat apply conj; reflexivity.
Qed.

(** C6, as the program has it.  Whatever the network does, a run of
    [mastQuery] on a request object none of whose integers is over the
    digit limit of the interpreter makes exactly one request: a [POST] of
    [/api/v0/invoke], on a connection over TLS to [mast.stsci.edu], with the
    body [request=<quoted JSON>] and the three headers [Content-type:
    application/x-www-form-urlencoded], [Accept: text/plain] and
    [User-agent: python-requests/<version>].  On a request object that holds
    an integer over the limit, [json.dumps] raises its [ValueError] before
    the connection object is created: the run makes no request and leaves
    the world as it found it. *)
Theorem mastQuery_one_post :
  (forall (env : Env) (request : nat) (w : World),
      within_limit (int_max_str_digits env) (object_at w request) = true ->
      let w' := (mastQuery env request w).2 in
      let c := length (conns w) in
      exists rq,
        requests_of (events_since w w') = [(c, rq)]
        /\ conn_endpoint <$> conns w' !! c
           = Some {| ep_secure := true; ep_host := lit "mast.stsci.edu";
                     ep_port := 443 |}
        /\ rq_method rq = lit "POST"
        /\ rq_url rq = lit "/api/v0/invoke"
        /\ json_of env (object_at w request)
           = Ok (json_text (float_repr env) (object_at w request))
        /\ urlencode (json_text (float_repr env) (object_at w request))
           = Ok (requestString env (object_at w request))
        /\ rq_body rq = lit "request=" ++ requestString env (object_at w request)
        /\ rq_headers rq
           = [(lit "Content-type", lit "application/x-www-form-urlencoded");
              (lit "Accept", lit "text/plain");
              (lit "User-agent", lit "python-requests/" ++ version env)]
        /\ header_get (rq_headers rq) (lit "Content-Type")
           = Some (lit "application/x-www-form-urlencoded")
        /\ header_get (rq_headers rq) (lit "Accept") = Some (lit "text/plain")
        /\ header_get (rq_headers rq) (lit "User-Agent")
           = Some (lit "python-requests/" ++ version env))
  /\ (forall (env : Env) (request : nat) (w : World),
         within_limit (int_max_str_digits env) (object_at w request) = false ->
         mastQuery env request w = (Raise DigitLimitError, w)
         /\ requests_of (events_since w (mastQuery env request w).2) = []
         /\ conns (mastQuery env request w).2 = conns w).
Proof.
  split.
  - intros env request w Hlimit w' c. subst w' c. rewrite mastQuery_run.
    destruct (mastQuery_outcome_world env (object_at w request) w Hlimit)
      as (is_open & pending & evs & -> & Hevs).
    exists (mast_request env (requestString env (object_at w request))).
    rewrite events_since_after_query.
    change (requests_of (EvRequest ?c ?rq :: evs)) with ((c, rq) :: requests_of evs).
    rewrite Hevs. unfold after_query. cbn [conns].
    rewrite lookup_snoc.
    assert (Hjson : json_of env (object_at w request)
                    = Ok (json_text (float_repr env) (object_at w request)))
      by (rewrite json_of_cases, Hlimit; reflexivity).
    rewrite (requestString_ok _ _ _ Hjson).
    repeat split. exact Hjson.
  - intros env request w Hlimit. rewrite mastQuery_run.
    rewrite (mastQuery_outcome_refused env _ w Hlimit). cbn [snd].
    rewrite events_since_refl. repeat split.
Qed.

Lemma mastQuery_one_post_witness :
  exists rq,
    requests_of (events_since request_world (mastQuery (stub []) 0 request_world).2)
    = [(length (conns request_world), rq)]
    /\ conn_endpoint <$> conns (mastQuery (stub []) 0 request_world).2
                           !! length (conns request_world)
       = Some {| ep_secure := true; ep_host := lit "mast.stsci.edu"; ep_port := 443 |}
    /\ rq_method rq = lit "POST"
    /\ rq_url rq = lit "/api/v0/invoke"
    /\ json_of (stub []) (object_at request_world 0)
       = Ok (json_text (float_repr (stub [])) (object_at request_world 0))
    /\ urlencode (json_text (float_repr (stub [])) (object_at request_world 0))
       = Ok (requestString (stub []) (object_at request_world 0))
    /\ rq_body rq = lit "request=" ++ requestString (stub []) (object_at request_world 0)
    /\ rq_headers rq
       = [(lit "Content-type", lit "application/x-www-form-urlencoded");
          (lit "Accept", lit "text/plain");
          (lit "User-agent", lit "python-requests/" ++ version (stub []))]
    /\ header_get (rq_headers rq) (lit "Content-Type")
       = Some (lit "application/x-www-form-urlencoded")
    /\ header_get (rq_headers rq) (lit "Accept") = Some (lit "text/plain")
    /\ header_get (rq_headers rq) (lit "User-Agent")
       = Some (lit "python-requests/" ++ version (stub [])).
Proof.
  apply (proj1 mastQuery_one_post (stub []) 0 request_world).
  reflexivity.
Defined.

(** ** Repeated calls *)

Lemma resolve_requests (env : Env) (name : str) (w : World) :
  requests_of (events_since w (resolve env name w).2)
  = [(length (conns w), lookup_request env name)].
Proof.
  rewrite resolve_run. cbn [snd].
  destruct (mastQuery_outcome_world env (resolverRequest name)
              (with_object w (resolverRequest name))
              (within_limit_resolverRequest _ name))
    as (is_open & pending & evs & -> & Hevs).
  change (events_since w ?w') with (events_since (with_object w (resolverRequest name)) w').
  rewrite events_since_after_query.
  change (requests_of (EvRequest ?c ?rq :: evs)) with ((c, rq) :: requests_of evs).
  rewrite Hevs. reflexivity.
Qed.

(** C7.  With the network a fixed function of the request, two successive
    calls [resolve name] send the same request and end the same way (the
    same pair, or the same exception); and whatever state earlier calls
    left behind, the outcome of a call is the same. *)
Theorem resolve_idempotent (env : Env) (name : str) (w : World) :
  let first := resolve env name w in
  let second := resolve env name first.2 in
  first.1 = second.1
  /\ snd <$> requests_of (events_since w first.2)
     = snd <$> requests_of (events_since first.2 second.2)
  /\ snd <$> requests_of (events_since w first.2) = [lookup_request env name]
  /\ (forall w' : World, (resolve env name w').1 = first.1).
Proof.
  intros first second. subst first second.
  rewrite !resolve_requests, !resolve_result. repeat split.
  intros w'. rewrite resolve_result. reflexivity.
Qed.

(** ** The connection *)




(** ** The request object *)

(** C10.  [mastQuery] leaves every object as it found it, its argument
    included, on every path.  [resolve] allocates one object, the request
    dictionary, whose ['input'] is the name exactly as the caller gave it;
    the object is the same after the call, and the body sent is the quoted
    serialisation of that dictionary. *)
Theorem mastQuery_preserves_request :
  (forall (env : Env) (request : nat) (w : World),
      heap (mastQuery env request w).2 = heap w
      /\ object_at (mastQuery env request w).2 request = object_at w request)
  /\ (forall (env : Env) (name : str) (w : World),
         heap (resolve env name w).2
         = heap w
             ++ [VDict [(lit "service", VStr (lit "Mast.Name.Lookup"));
                        (lit "params", VDict [(lit "input", VStr name);
                                              (lit "format", VStr (lit "json"))])]]
         /\ (let! a := getitem (object_at (resolve env name w).2 (length (heap w)))
                         (VStr (lit "params")) in
             getitem a (VStr (lit "input"))) = Ok (VStr name)
         /\ rq_body <$> (snd <$> requests_of (events_since w (resolve env name w).2))
            = [lit "request="
                 ++ requestString env
                      (object_at (resolve env name w).2 (length (heap w)))]).
Proof.
  split.
  - intros env request w. rewrite mastQuery_run.
    destruct (within_limit (int_max_str_digits env) (object_at w request)) eqn:Hlimit.
    + destruct (mastQuery_outcome_world env (object_at w request) w Hlimit)
        as (is_open & pending & evs & -> & _).
      split; reflexivity.
    + rewrite (mastQuery_outcome_refused env _ w Hlimit). split; reflexivity.
  - intros env name w. rewrite resolve_requests.
    rewrite resolve_run. cbn [snd].
    destruct (mastQuery_outcome_world env (resolverRequest name)
                (with_object w (resolverRequest name))
                (within_limit_resolverRequest _ name))
      as (is_open & pending & evs & -> & _).
    unfold after_query. cbn [heap].
    unfold object_at. cbn [heap with_object]. rewrite lookup_snoc.
    repeat split.
Qed.

(** ** The serialised request *)

(** The body sent for [KQ UMa] holds neither ["input":"KQ UMa"] nor
    ["format":"json"]: it is percent-encoded, and the text it encodes has a
    space after every colon. *)
Lemma request_body_not_verbatim :
  rq_body <$> (snd <$> requests_of
                 (events_since empty_world
                    (resolve (stub (qlit "{}")) (lit "KQ UMa") empty_world).2))
  = [kq_body]
  /\ occurs (qlit "'input':'KQ UMa'") kq_body = false
  /\ occurs (qlit "'format':'json'") kq_body = false
  /\ unquote kq_quoted = Ok kq_text
  /\ occurs (qlit "'input':'KQ UMa'") kq_text = false
  /\ occurs (qlit "'format':'json'") kq_text = false.
Proof. repeat split; vm_compute; reflexivity. Qed.

(** *** Quoting and unquoting an ASCII text *)

(** A property of every character below 128, by enumeration. *)
Lemma below_128 (f : N -> bool) :
  forallb f (List.map N.of_nat (seq 0 128)) = true ->
  forall c, (c < 128)%N -> f c = true.
Proof.
  intros H c Hc. rewrite forallb_forall in H. apply H.
  apply in_map_iff. exists (N.to_nat c). split; [lia|].
  apply in_seq. lia.
Qed.

Lemma quote_byte_spec (c : N) :
  (c < 128)%N ->
  Byte.to_N (byte_of c) = c
  /\ utf8_encode_char c = Ok [byte_of c]
  /\ (quote_byte (byte_of c) = [c] /\ c <> ch "%"
      \/ exists h l a b,
          quote_byte (byte_of c) = [ch "%"; h; l]
          /\ hex_value h = Some a /\ hex_value l = Some b
          /\ (a * 16 + b)%N = c).
Proof.
  intros Hc. pose proof (below_128 quote_byte_ok eq_refl c Hc) as H.
  unfold quote_byte_ok in H. apply andb_prop in H as [Hn H].
  apply N.eqb_eq in Hn. split; [exact Hn|]. split.
  - unfold utf8_encode_char. apply N.ltb_lt in Hc. rewrite Hc. reflexivity.
  - destruct (quote_byte (byte_of c)) as [|x [|h [|l [|]]]]; try discriminate.
    + apply andb_prop in H as [Hx Hp]. apply N.eqb_eq in Hx. subst x.
      left. split; [reflexivity|]. apply negb_true_iff, N.eqb_neq in Hp. exact Hp.
    + apply andb_prop in H as [Hp H]. apply N.eqb_eq in Hp. subst x.
      destruct (hex_value h) as [a|] eqn:Hh; [|discriminate].
      destruct (hex_value l) as [b|] eqn:Hl; [|discriminate].
      apply N.eqb_eq in H. right. exists h, l, a, b. auto.
Qed.

Lemma utf8_encode_ascii (s : str) :
  Forall (fun c => (c < 128)%N) s -> utf8_encode s = Ok (blit s).
Proof.
  induction 1 as [|c s Hc _ IH]; [reflexivity|].
  cbn [utf8_encode]. rewrite IH.
  destruct (quote_byte_spec c Hc) as (_ & -> & _). reflexivity.
Qed.

Lemma utf8_decode_ascii (s : str) :
  Forall (fun c => (c < 128)%N) s -> utf8_decode (blit s) = Ok s.
Proof.
  induction 1 as [|c s Hc _ IH]; [reflexivity|].
  change (blit (c :: s)) with (byte_of c :: blit s).
  cbn [utf8_decode]. destruct (quote_byte_spec c Hc) as (-> & _ & _).
  apply N.ltb_lt in Hc. rewrite Hc, IH. reflexivity.
Qed.

Lemma unquote_to_bytes_quote (s : str) :
  Forall (fun c => (c < 128)%N) s ->
  unquote_to_bytes (quote_from_bytes (blit s)) = Ok (blit s).
Proof.
  induction 1 as [|c s Hc _ IH]; [reflexivity|].
  change (quote_from_bytes (blit (c :: s)))
    with (quote_byte (byte_of c) ++ quote_from_bytes (blit s)).
  change (blit (c :: s)) with (byte_of c :: blit s).
  destruct (quote_byte_spec c Hc)
    as (_ & Henc & [[-> Hne] | (h & l & a & b & -> & Hh & Hl & Hab)]).
  - cbn [app unquote_to_bytes]. rewrite decide_False by exact Hne.
    rewrite Henc, IH. reflexivity.
  - cbn [app unquote_to_bytes]. rewrite decide_True by reflexivity.
    rewrite Hh, Hl, IH, Hab. reflexivity.
Qed.

(** [unquote] undoes [quote] on every ASCII text. *)
Lemma unquote_quote (s : str) :
  Forall (fun c => (c < 128)%N) s ->
  exists q, quote s = Ok q /\ unquote q = Ok s.
Proof.
  intros Hs. exists (quote_from_bytes (blit s)). split.
  - unfold quote. rewrite (utf8_encode_ascii s Hs). reflexivity.
  - unfold unquote. rewrite (unquote_to_bytes_quote s Hs). cbn [rbind].
    apply utf8_decode_ascii. exact Hs.
Qed.

(** *** The payload of [resolve] *)

Lemma json_text_resolverRequest (frepr : spec_float -> string) (name : str) :
  json_text frepr (resolverRequest name) = request_text name.
Proof.
  unfold request_text, resolverRequest.
  cbn [json_text List.map join]. generalize (encode_basestring_ascii name) as e. intros e.
  repeat (progress (rewrite <- ?app_assoc; cbn)). reflexivity.
Qed.

Lemma dumps_resolverRequest (frepr : spec_float -> string) (limit : N) (name : str) :
  dumps frepr limit (resolverRequest name) = Ok (request_text name).
Proof.
  rewrite dumps_json_text, within_limit_resolverRequest, json_text_resolverRequest.
  reflexivity.
Qed.

Lemma ascii_check (s : str) :
  forallb (fun c => (c <? 128)%N) s = true -> Forall (fun c => (c < 128)%N) s.
Proof.
  induction s as [|c s IH]; cbn [forallb]; intros H; constructor;
    apply andb_prop in H as [Hc Hs]; [apply N.ltb_lt, Hc | exact (IH Hs)].
Qed.

Lemma request_text_ascii (name : str) :
  Forall (fun c => (c < 128)%N) (request_text name).
Proof.
  unfold request_text. apply Forall_app; split; [|apply Forall_app; split].
  - apply ascii_check. reflexivity.
  - apply encode_basestring_ascii_lt.
  - apply ascii_check. reflexivity.
Qed.

Lemma strip_prefix_app (p s : str) : strip_prefix p (p ++ s) = Some s.
Proof.
  induction p as [|a p IH]; [destruct s; reflexivity|].
  cbn [app strip_prefix]. rewrite decide_True by reflexivity. exact IH.
Qed.

Lemma occurs_infix (pat s : str) :
  (exists a b, s = a ++ pat ++ b) -> occurs pat s = true.
Proof.
  intros (a & b & ->). induction a as [|x a IH].
  - cbn [app]. destruct (pat ++ b) eqn:E; cbn [occurs]; rewrite <- ?E;
      rewrite strip_prefix_app; reflexivity.
  - cbn [app occurs]. destruct (strip_prefix pat (x :: a ++ pat ++ b)); [reflexivity|].
    exact IH.
Qed.

Lemma lookup_request_body (env : Env) (name : str) :
  rq_body (lookup_request env name) = request_body name
  /\ unquote (quote_from_bytes (blit (request_text name))) = Ok (request_text name).
Proof.
  unfold lookup_request, mast_request, request_body, requestString, json_of.
  cbn [rq_body].
  rewrite dumps_resolverRequest. cbn [rbind]. unfold urlencode, quote.
  rewrite (utf8_encode_ascii _ (request_text_ascii name)). cbn [rbind]. split.
  - reflexivity.
  - unfold unquote. rewrite (unquote_to_bytes_quote _ (request_text_ascii name)).
    cbn [rbind]. apply utf8_decode_ascii, request_text_ascii.
Qed.

(** C4, as the program has it.  The body [resolve] sends is a function of
    the name alone: [request=] and the percent-encoded JSON text of the
    request, from which undoing the encoding gives the text back.  For
    [KQ UMa] the text is [{"service": "Mast.Name.Lookup", "params": {"input":
    "KQ UMa", "format": "json"}}]: it embeds ["input": "KQ UMa"] and
    ["format": "json"], with the space [json.dumps] puts after a colon, and
    parsing it gives back a dictionary whose [params] hold [input = "KQ UMa"]
    and [format = "json"]. *)
Theorem resolve_request_payload :
  (forall (env : Env) (name : str) (w : World),
      rq_body <$> (snd <$> requests_of (events_since w (resolve env name w).2))
      = [request_body name]
      /\ unquote (quote_from_bytes (blit (request_text name))) = Ok (request_text name)
      /\ occurs (qlit "'input': " ++ encode_basestring_ascii name) (request_text name)
         = true
      /\ occurs (qlit "'format': 'json'") (request_text name) = true)
  /\ request_body (lit "KQ UMa") = kq_body
  /\ unquote kq_quoted = Ok kq_text
  /\ request_text (lit "KQ UMa") = kq_text
  /\ occurs (qlit "'input': 'KQ UMa'") kq_text = true
  /\ occurs (qlit "'format': 'json'") kq_text = true
  /\ (forall limit : N,
        loads limit kq_text
        = Ok (VDict [(lit "service", VStr (lit "Mast.Name.Lookup"));
                     (lit "params", VDict [(lit "input", VStr (lit "KQ UMa"));
                                           (lit "format", VStr (lit "json"))])])
        /\ (let! o := loads limit kq_text in
            let! params := getitem o (VStr (lit "params")) in
            getitem params (VStr (lit "input"))) = Ok (VStr (lit "KQ UMa"))
        /\ (let! o := loads limit kq_text in
            let! params := getitem o (VStr (lit "params")) in
            getitem params (VStr (lit "format"))) = Ok (VStr (lit "json"))).
Proof.
  split; [|repeat split; vm_compute; reflexivity].
  intros env name w. rewrite resolve_requests. cbn [fmap list_fmap snd].
  destruct (lookup_request_body env name) as [-> Hun].
  split; [reflexivity|]. split; [exact Hun|]. split.
  - apply occurs_infix. exists (qlit "{'service': 'Mast.Name.Lookup', 'params': {").
    eexists. unfold request_text. 
    change (qlit "{'service': 'Mast.Name.Lookup', 'params': {'input': ")
      with (qlit "{'service': 'Mast.Name.Lookup', 'params': {" ++ qlit "'input': ").
    rewrite <- !app_assoc. reflexivity.
  - apply occurs_infix.
    exists (qlit "{'service': 'Mast.Name.Lookup', 'params': {'input': "
              ++ encode_basestring_ascii name ++ qlit ", "), (qlit "}}").
    unfold request_text.
    change (qlit ", 'format': 'json'}}")
      with (qlit ", " ++ qlit "'format': 'json'" ++ qlit "}}").
    rewrite <- !app_assoc. reflexivity.
Qed.

(** * More about the program *)

(** ** What [mastQuery] returns *)



(** ** Errors on the way through [resolve] *)

(** X3.  The [try] of [resolve] guards its two lookups only.  Whatever
    [mastQuery] raises, [resolve] raises unchanged, an [IndexError]
    included; and whatever [json.loads] raises on the text [mastQuery]
    returned, [resolve] raises unchanged. *)
Theorem resolve_propagates :
  (forall (env : Env) (name : str) (w : World) (e : exn),
      (mastQuery env (length (heap w)) (with_object w (resolverRequest name))).1
      = Raise e ->
      (resolve env name w).1 = Raise e)
  /\ (forall (env : Env) (name : str) (w : World) (head : list (str * str))
             (content : str) (e : exn),
         (mastQuery env (length (heap w)) (with_object w (resolverRequest name))).1
         = Ok (head, content) ->
         loads (int_max_str_digits env) content = Raise e ->
         (resolve env name w).1 = Raise e).
Proof.
  split.
  - intros env name w e H. unfold resolve. fold (resolverRequest name).
    unfold bind at 1. unfold new_object at 1.
    fold (with_object w (resolverRequest name)).
    unfold bind at 1.
    destruct (mastQuery env _ _) as [[r|e'] w']; cbn [fst] in H; [discriminate|].
    injection H as ->. reflexivity.
  - intros env name w head content e H Hloads. unfold resolve.
    fold (resolverRequest name).
    unfold bind at 1. unfold new_object at 1.
    fold (with_object w (resolverRequest name)).
    unfold bind at 1.
    destruct (mastQuery env _ _) as [[r|e'] w']; cbn [fst] in H; [|discriminate].
    injection H as ->. unfold bind at 1. unfold lift at 1. rewrite Hloads.
    reflexivity.
Qed.

(** A transport that fails with an [IndexError], which is not turned into
    the unknown-object error; and a body that is no JSON. *)
Lemma resolve_propagates_witness :
  (resolve {| version_info := python_3_11_4; int_max_str_digits := 4300;
              float_repr := fun _ => "0.0"%string;
              network := fun _ _ => NoResponse IndexError |}
     (lit "M 31") empty_world).1 = Raise IndexError
  /\ (resolve (stub (lit "<html>busy</html>")) (lit "M 31") empty_world).1
     = Raise JSONDecodeError.
Proof.
  split.
  - apply (proj1 resolve_propagates). vm_compute. reflexivity.
  - apply (proj2 resolve_propagates _ _ _ [] (lit "<html>busy</html>"));
      vm_compute; reflexivity.
Defined.

(** ** The connection of [resolve] *)

Lemma resolve_world_after_response (env : Env) (name : str) (w : World)
    (content : str) :
  response_text env name = Ok content ->
  (resolve env name w).2
  = after_query env (resolverRequest name) (with_object w (resolverRequest name))
      false None
      [EvGetResponse (length (conns w)); EvRead (length (conns w));
       EvClose (length (conns w))].
Proof.
  intros H. rewrite resolve_run. cbn [snd].
  unfold response_text, lookup_request in H. unfold mastQuery_outcome.
  rewrite json_of_resolverRequest.
  destruct (network env mast_endpoint _) as [e|e|e|will_close head [bs|e]];
    try discriminate.
  rewrite H. reflexivity.
Qed.

(** X4.  Once the exchange has succeeded, [resolve] has closed its
    connection before it looks at the response: however it then ends (a
    pair, the unknown-object error, a [KeyError], a [JSONDecodeError]), the
    calls it has made are the four of a complete exchange, its connection
    holds no socket, and if no connection held a socket before, none does
    after. *)
Theorem resolve_closes_connection (env : Env) (name : str) (w : World)
    (content : str) :
  response_text env name = Ok content ->
  events_since w (resolve env name w).2
  = full_exchange (length (conns w)) (lookup_request env name)
  /\ closed <$> conns (resolve env name w).2 !! length (conns w) = Some true
  /\ (forallb closed (conns w) = true ->
      forallb closed (conns (resolve env name w).2) = true).
Proof.
  intros H. rewrite (resolve_world_after_response env name w content H).
  split; [|split].
  - change (events_since w ?w')
      with (events_since (with_object w (resolverRequest name)) w').
    rewrite events_since_after_query. reflexivity.
  - unfold after_query. cbn [conns with_object]. rewrite lookup_snoc. reflexivity.
  - unfold after_query. cbn [conns with_object]. intros Hall.
    rewrite forallb_app, Hall. reflexivity.
Qed.

Lemma resolve_closes_connection_witness :
  events_since empty_world
    (resolve (stub (qlit "{'resolvedCoordinate':[]}")) (lit "M 31") empty_world).2
  = full_exchange (length (conns empty_world))
      (lookup_request (stub (qlit "{'resolvedCoordinate':[]}")) (lit "M 31"))
  /\ closed <$> conns (resolve (stub (qlit "{'resolvedCoordinate':[]}")) (lit "M 31")
                         empty_world).2 !! length (conns empty_world) = Some true
  /\ (forallb closed (conns empty_world) = true ->
      forallb closed
        (conns (resolve (stub (qlit "{'resolvedCoordinate':[]}")) (lit "M 31")
                  empty_world).2) = true).
Proof.
  apply (resolve_closes_connection (stub (qlit "{'resolvedCoordinate':[]}"))
           (lit "M 31") empty_world (qlit "{'resolvedCoordinate':[]}")).
  vm_compute. reflexivity.
Defined.

(** ** Edges of the response *)

(** X5.  The body is decoded as [utf-8], not [utf-8-sig]: a response that
    begins with the UTF-8 byte-order mark is refused by [json.loads] with a
    [JSONDecodeError], whatever JSON follows the mark. *)
Theorem resolve_rejects_bom (env : Env) (name : str) (w : World)
    (will_close : bool) (head : list (str * str)) (rest : bytes) (content : str) :
  network env mast_endpoint (lookup_request env name)
  = Response will_close head (BodyBytes (utf8_bom ++ rest)) ->
  utf8_decode rest = Ok content ->
  (resolve env name w).1 = Raise JSONDecodeError.
Proof.
  intros Hnet Hrest. rewrite resolve_result.
  unfold decoded_response, response_text. rewrite Hnet.
  change (utf8_decode (utf8_bom ++ rest))
    with (let! s := utf8_decode rest in Ok (65279%N :: s)).
  rewrite Hrest. reflexivity.
Qed.

Lemma resolve_rejects_bom_witness :
  (resolve (stub_bytes (utf8_bom ++ blit (qlit "{'resolvedCoordinate':[{'ra':1,'decl':2}]}")))
     (lit "M 31") empty_world).1 = Raise JSONDecodeError.
Proof.
  apply (resolve_rejects_bom _ _ _ true []
           (blit (qlit "{'resolvedCoordinate':[{'ra':1,'decl':2}]}"))
           (qlit "{'resolvedCoordinate':[{'ra':1,'decl':2}]}"));
    vm_compute; reflexivity.
Defined.

(** X6.  [resolve] looks at the first entry alone.  Two responses whose
    ['resolvedCoordinate'] arrays begin with the same entry give the same
    outcome, whatever else the arrays and the objects around them hold. *)
Theorem resolve_first_entry_only (env env' : Env) (name : str) (w w' : World)
    (obj obj' first : value) (rest rest' : list value) :
  decoded_response env name = Ok obj ->
  decoded_response env' name = Ok obj' ->
  getitem obj (VStr (lit "resolvedCoordinate")) = Ok (VList (first :: rest)) ->
  getitem obj' (VStr (lit "resolvedCoordinate")) = Ok (VList (first :: rest')) ->
  (resolve env name w).1 = (resolve env' name w').1.
Proof.
  intros Hobj Hobj' Hkey Hkey'. rewrite !resolve_result, Hobj, Hobj'.
  cbn [rbind]. unfold coordinate_of, first_coordinate. rewrite Hkey, Hkey'.
  cbn [rbind].
  change (getitem (VList (first :: rest)) (VInt 0)) with (Ok first).
  change (getitem (VList (first :: rest')) (VInt 0)) with (Ok first).
  reflexivity.
Qed.

Lemma resolve_first_entry_only_witness :
  (resolve (stub (qlit "{'resolvedCoordinate':[{'ra':1,'decl':2}]}")) (lit "M 31")
     empty_world).1
  = (resolve (stub (qlit "{'status':'', 'resolvedCoordinate':[{'ra':1,'decl':2},{'ra':3}]}"))
       (lit "M 31") request_world).1.
Proof.
  apply (resolve_first_entry_only _ _ _ _ _
           (VDict [(lit "resolvedCoordinate",
                    VList [VDict [(lit "ra", VInt 1); (lit "decl", VInt 2)]])])
           (VDict [(lit "status", VStr []);
                   (lit "resolvedCoordinate",
                    VList [VDict [(lit "ra", VInt 1); (lit "decl", VInt 2)];
                           VDict [(lit "ra", VInt 3)]])])
           (VDict [(lit "ra", VInt 1); (lit "decl", VInt 2)]) []
           [VDict [(lit "ra", VInt 3)]]);
    vm_compute; reflexivity.
Defined.

(** ** The text of the response *)

Lemma to_N_byte_of (n : N) : (n < 256)%N -> Byte.to_N (byte_of n) = n.
Proof.
  intros Hn. unfold byte_of. rewrite N.mod_small by exact Hn.
  destruct (Byte.of_N n) as [b|] eqn:E.
  - apply Byte.to_of_N, E.
  - apply Byte.of_N_None_iff in E. lia.
Qed.

Lemma cont_byte_of (n : N) : (n < 64)%N -> cont (byte_of (128 + n)) = Some n.
Proof.
  intros Hn. unfold cont. rewrite to_N_byte_of by lia.
  rewrite (proj2 (N.leb_le _ _)) by lia. rewrite (proj2 (N.leb_le _ _)) by lia.
  cbn [andb]. f_equal. lia.
Qed.

Ltac div_arith := zify; Z.to_euclidean_division_equations; lia.

(** The decoder reads back the bytes the encoder wrote for a character. *)
Lemma utf8_decode_encode_char (c : codepoint) (bs r : bytes) :
  utf8_encode_char c = Ok bs ->
  utf8_decode (bs ++ r) = let! s := utf8_decode r in Ok (c :: s).
Proof.
  unfold utf8_encode_char.
  destruct (N.ltb_spec c 128) as [H1|H1].
  { intros [= <-]. cbn [app utf8_decode]. rewrite to_N_byte_of by lia.
    rewrite (proj2 (N.ltb_lt _ _)) by lia. reflexivity. }
  destruct (N.ltb_spec c 2048) as [H2|H2].
  { intros [= <-]. cbn [app utf8_decode].
    rewrite to_N_byte_of by div_arith.
    rewrite cont_byte_of by div_arith.
    rewrite (proj2 (N.ltb_ge _ _)) by div_arith.
    rewrite (proj2 (N.ltb_ge _ _)) by div_arith.
    rewrite (proj2 (N.ltb_lt _ _)) by div_arith.
    replace ((192 + c / 64 - 192) * 64 + c mod 64)%N with c by div_arith.
    reflexivity. }
  destruct ((55296 <=? c) && (c <=? 57343))%N eqn:Hs; [discriminate|].
  destruct (N.ltb_spec c 65536) as [H3|H3].
  { intros [= <-]. cbn [app utf8_decode].
    rewrite to_N_byte_of by div_arith.
    rewrite !cont_byte_of by div_arith.
    rewrite (proj2 (N.ltb_ge _ _)) by div_arith.
    rewrite (proj2 (N.ltb_ge _ _)) by div_arith.
    rewrite (proj2 (N.ltb_ge _ _)) by div_arith.
    rewrite (proj2 (N.ltb_lt _ _)) by div_arith.
    replace (((224 + c / 4096 - 224) * 64 + (c / 64) mod 64) * 64 + c mod 64)%N
      with c by div_arith.
    rewrite Hs. rewrite (proj2 (N.ltb_ge _ _)) by lia. reflexivity. }
  destruct (N.leb_spec c 1114111) as [H4|H4]; [|discriminate].
  intros [= <-]. cbn [app utf8_decode].
  rewrite to_N_byte_of by div_arith.
  rewrite !cont_byte_of by div_arith.
  rewrite (proj2 (N.ltb_ge _ _)) by div_arith.
  rewrite (proj2 (N.ltb_ge _ _)) by div_arith.
  rewrite (proj2 (N.ltb_ge _ _)) by div_arith.
  rewrite (proj2 (N.ltb_ge _ _)) by div_arith.
  rewrite (proj2 (N.ltb_lt _ _)) by div_arith.
  replace ((((240 + c / 262144 - 240) * 64 + (c / 4096) mod 64) * 64
            + (c / 64) mod 64) * 64 + c mod 64)%N
    with c by div_arith.
  rewrite (proj2 (N.ltb_ge _ _)) by lia. rewrite (proj2 (N.ltb_ge _ _)) by lia.
  reflexivity.
Qed.

Lemma utf8_decode_encode (s : str) (bs : bytes) :
  utf8_encode s = Ok bs -> utf8_decode bs = Ok s.
Proof.
  revert bs. induction s as [|c s IH]; intros bs; cbn [utf8_encode].
  - intros [= <-]. reflexivity.
  - destruct (utf8_encode_char c) as [b|e] eqn:Ec; [|discriminate].
    destruct (utf8_encode s) as [bs'|e]; [|discriminate].
    cbn [rbind]. intros [= <-].
    rewrite (utf8_decode_encode_char c b bs' Ec), (IH bs' eq_refl). reflexivity.
Qed.

(** X7.  What [mastQuery] returns is the text the service sent: if the
    request has been sent ([json.dumps] accepts it) and the body of the
    response is the UTF-8 encoding of a text, [mastQuery] returns that text,
    character for character, with the headers of the response, and has
    closed its connection. *)
Theorem mastQuery_returns_text (env : Env) (request : nat) (w : World)
    (will_close : bool) (head : list (str * str)) (text : str) (bs : bytes) :
  within_limit (int_max_str_digits env) (object_at w request) = true ->
  utf8_encode text = Ok bs ->
  network env mast_endpoint
    (mast_request env (requestString env (object_at w request)))
  = Response will_close head (BodyBytes bs) ->
  (mastQuery env request w).1 = Ok (head, text)
  /\ closed <$> conns (mastQuery env request w).2 !! length (conns w) = Some true.
Proof.
  intros Hlimit Henc Hnet. rewrite mastQuery_run. unfold mastQuery_outcome.
  rewrite json_of_cases, Hlimit.
  rewrite Hnet, (utf8_decode_encode text bs Henc). cbn [fst snd].
  split; [reflexivity|].
  unfold after_query. cbn [conns]. rewrite lookup_snoc. reflexivity.
Qed.

Lemma mastQuery_returns_text_witness :
  (mastQuery (stub_bytes [Byte.x63; Byte.xc3; Byte.xa9; Byte.xe2; Byte.x82; Byte.xac;
                          Byte.xf0; Byte.x9f; Byte.x98; Byte.x80])
     0 request_world).1
  = Ok ([], [99%N; 233%N; 8364%N; 128512%N])
  /\ closed <$> conns (mastQuery (stub_bytes [Byte.x63; Byte.xc3; Byte.xa9; Byte.xe2;
                                              Byte.x82; Byte.xac; Byte.xf0; Byte.x9f;
                                              Byte.x98; Byte.x80])
                         0 request_world).2 !! length (conns request_world)
     = Some true.
Proof.
  apply (mastQuery_returns_text _ 0 request_world true []
           [99%N; 233%N; 8364%N; 128512%N]
           [Byte.x63; Byte.xc3; Byte.xa9; Byte.xe2; Byte.x82; Byte.xac;
            Byte.xf0; Byte.x9f; Byte.x98; Byte.x80]);
    vm_compute; reflexivity.
Defined.

(** X8.  [resolve] makes no use of the headers [mastQuery] hands it: two
    services that answer the lookup with the same body, under whatever
    headers, give the same outcome, in interpreters with the same limit on
    the digits of an integer. *)
Theorem resolve_ignores_headers (env env' : Env) (name : str) (w w' : World)
    (will_close will_close' : bool) (head head' : list (str * str)) (body : Body) :
  int_max_str_digits env = int_max_str_digits env' ->
  network env mast_endpoint (lookup_request env name)
  = Response will_close head body ->
  network env' mast_endpoint (lookup_request env' name)
  = Response will_close' head' body ->
  (resolve env name w).1 = (resolve env' name w').1.
Proof.
  intros Hlimit H H'. rewrite !resolve_result.
  unfold decoded_response, response_text. rewrite H, H', Hlimit. reflexivity.
Qed.

Lemma resolve_ignores_headers_witness :
  (resolve (stub (qlit "{'resolvedCoordinate':[{'ra':1,'decl':2}]}")) (lit "M 31")
     empty_world).1
  = (resolve {| version_info := (Byte.x03, Byte.x0c, Byte.x00);
                int_max_str_digits := 4300;
                float_repr := fun _ => "0.0"%string;
                network := fun _ _ =>
                  Response false
                    [(lit "Content-Type", lit "text/html");
                     (lit "Content-Length", lit "42")]
                    (BodyBytes (blit (qlit "{'resolvedCoordinate':[{'ra':1,'decl':2}]}"))) |}
       (lit "M 31") request_world).1.
Proof.
  apply (resolve_ignores_headers _ _ _ _ _ true false []
           [(lit "Content-Type", lit "text/html"); (lit "Content-Length", lit "42")]
           (BodyBytes (blit (qlit "{'resolvedCoordinate':[{'ra':1,'decl':2}]}"))));
    reflexivity.
Defined.

(** ** The exceptions of [resolve] *)

Lemma utf8_decode_raises (bs : bytes) (e : exn) :
  utf8_decode bs = Raise e -> e = UnicodeDecodeError.
Proof.
  remember (length bs) as n eqn:Hn. revert bs Hn e.
  induction n as [n IH] using lt_wf_ind. intros bs -> e H.
  assert (Hrec : forall r : bytes, length r < length bs ->
                 forall (A : Type) (k : str -> Result A) e',
                   (forall s, k s <> Raise e') ->
                   rbind (utf8_decode r) k = Raise e' -> e' = UnicodeDecodeError).
  { intros r Hr A k e' Hk Hb. destruct (utf8_decode r) as [s|e''] eqn:E.
    - destruct (Hk s Hb).
    - cbn [rbind] in Hb. injection Hb as ->. exact (IH _ Hr r eq_refl _ E). }
  destruct bs as [|b0 r0]; [discriminate|]. cbn [utf8_decode] in H.
  repeat (case_match; subst; try (injection H as <-; reflexivity));
    (eapply Hrec; [| |exact H]; [cbn [length]; lia | intros s; cbv beta; discriminate]).
Qed.

Ltac in_list :=
  solve [repeat first [apply list_elem_of_here | apply list_elem_of_further]].

Ltac not_in_list H :=
  repeat (apply elem_of_cons in H as [H|H]; [discriminate H|]);
  apply elem_of_nil in H; destruct H.

Lemma seq_index_raises {A} (l : list A) (i : Z) (e : exn) :
  seq_index l i = Raise e -> e = IndexError.
Proof. unfold seq_index. repeat case_match; congruence. Qed.

Lemma getitem_raises (obj key : value) (e : exn) :
  getitem obj key = Raise e -> e = IndexError \/ e = TypeError \/ e = KeyError key.
Proof.
  unfold getitem. intros H.
  repeat (case_match; subst; try discriminate;
          try (injection H as <-; auto; fail));
    try (left; eapply seq_index_raises; eassumption);
    destruct (seq_index _ _) eqn:E; try discriminate;
    cbn [rbind] in H; injection H as <-; left; eapply seq_index_raises, E.
Qed.

Lemma first_coordinate_raises (obj : value) (field : str) (e : exn) :
  first_coordinate obj field = Raise e ->
  e = IndexError
  \/ e ∈ [TypeError; KeyError KEY; KeyError (VInt 0); KeyError (VStr field)].
Proof.
  unfold first_coordinate. fold KEY. intros H.
  destruct (getitem obj KEY) as [a|e1] eqn:Ea; cbn [rbind] in H;
    [|injection H as ->; apply getitem_raises in Ea as [->|[->| ->]];
      [left; reflexivity | right; in_list | right; in_list]].
  destruct (getitem a (VInt 0)) as [b|e1] eqn:Eb; cbn [rbind] in H;
    [|injection H as ->; apply getitem_raises in Eb as [->|[->| ->]];
      [left; reflexivity | right; in_list | right; in_list]].
  apply getitem_raises in H as [->|[->| ->]];
    [left; reflexivity | right; in_list | right; in_list].
Qed.

Lemma coordinate_of_raises (name : str) (obj : value) (e : exn) :
  coordinate_of name obj = Raise e -> e ∈ response_errors name.
Proof.
  unfold coordinate_of, response_errors. intros H.
  destruct (first_coordinate obj (lit "ra")) as [x|e1] eqn:Era.
  - destruct (first_coordinate obj (lit "decl")) as [y|e2] eqn:Edec; [discriminate|].
    apply first_coordinate_raises in Edec as [->|Hin].
    + injection H as <-. in_list.
    + assert (e = e2) as -> by (destruct e2; congruence || not_in_list Hin).
      repeat (apply elem_of_cons in Hin as [->|Hin]; [in_list|]).
      apply elem_of_nil in Hin. destruct Hin.
  - apply first_coordinate_raises in Era as [->|Hin].
    + injection H as <-. in_list.
    + assert (e = e1) as -> by (destruct e1; congruence || not_in_list Hin).
      repeat (apply elem_of_cons in Hin as [->|Hin]; [in_list|]).
      apply elem_of_nil in Hin. destruct Hin.
Qed.

(** X9.  Once a response has been read, [resolve] ends with a pair or
    with one of nine exceptions: [UnicodeDecodeError] (the body is not
    UTF-8), [JSONDecodeError] (the text is not JSON), the [ValueError] of
    the digit limit (the text holds an integer of more digits than the
    interpreter converts), the unknown-object [ValueError], [TypeError], or
    a [KeyError] for ['resolvedCoordinate'], [0], ['ra'] or ['decl'].  In
    particular no [IndexError] leaves [resolve].  (The recursion limit of
    the interpreter is outside this model.) *)
Theorem resolve_errors_after_response (env : Env) (name : str) (w : World)
    (will_close : bool) (head : list (str * str)) (bs : bytes) (e : exn) :
  network env mast_endpoint (lookup_request env name)
  = Response will_close head (BodyBytes bs) ->
  (resolve env name w).1 = Raise e ->
  e ∈ response_errors name /\ e <> IndexError.
Proof.
  intros Hnet H. rewrite resolve_result in H.
  unfold decoded_response, response_text in H. rewrite Hnet in H.
  assert (Hin : e ∈ response_errors name).
  { destruct (utf8_decode bs) as [content|e1] eqn:Edec; cbn [rbind] in H.
    - destruct (loads_total (int_max_str_digits env) content)
        as [[obj Hobj]|[Hraise|Hraise]];
        rewrite ?Hobj, ?Hraise in H; cbn [rbind] in H.
      + apply coordinate_of_raises in H. exact H.
      + injection H as <-. unfold response_errors. in_list.
      + injection H as <-. unfold response_errors. in_list.
    - injection H as <-. apply utf8_decode_raises in Edec as ->.
      unfold response_errors. in_list. }
  split; [exact Hin|].
  unfold response_errors, unknown_object in Hin.
  intros ->. not_in_list Hin.
Qed.

Lemma resolve_errors_after_response_witness :
  KeyError (VInt 0) ∈ response_errors (lit "M 31")
  /\ KeyError (VInt 0) <> IndexError.
Proof.
  apply (resolve_errors_after_response (stub (qlit "{'resolvedCoordinate': {}}"))
           (lit "M 31") empty_world true [] (blit (qlit "{'resolvedCoordinate': {}}")));
    vm_compute; reflexivity.
Defined.

(** ** Reading back an escape *)

(** The four digits [escape_u] writes are read back by [decode_uXXXX]. *)
Lemma hex_value_lower (d : N) : (d < 16)%N -> hex_value (hex_lower d) = Some d.
Proof.
  intros Hd.
  assert (H : forallb (fun d => bool_decide (hex_value (hex_lower d) = Some d))
                (List.map N.of_nat (seq 0 16)) = true) by reflexivity.
  rewrite forallb_forall in H.
  specialize (H d). rewrite bool_decide_eq_true in H. apply H.
  apply in_map_iff. exists (N.to_nat d). split; [lia|]. apply in_seq. lia.
Qed.

Lemma decode_escape_u (n : N) (r : str) :
  (n < 65536)%N ->
  exists a b c d, escape_u n = [ch "\"; ch "u"; a; b; c; d]
                  /\ decode_uXXXX (a :: b :: c :: d :: r) = Ok (n, r).
Proof.
  intros Hn. unfold escape_u. do 4 eexists. split; [reflexivity|].
  unfold decode_uXXXX.
  rewrite !hex_value_lower by (apply N.mod_lt; discriminate).
  f_equal. f_equal.
  zify. Z.to_euclidean_division_equations. lia.
Qed.

(** The two halves of a surrogate pair, put together again. *)
Lemma lor_low_bits (a b : N) :
  (b < 1024)%N -> N.lor (a * 1024) b = (a * 1024 + b)%N.
Proof.
  intros Hb.
  assert (Hland : N.land (a * 2 ^ 10) (b mod 2 ^ 10) = 0%N).
  { apply N.bits_inj_0. intros n. rewrite N.land_spec.
    destruct (N.lt_ge_cases n 10) as [Hn|Hn].
    - rewrite N.mul_pow2_bits_low by exact Hn. reflexivity.
    - rewrite N.mod_pow2_bits_high by exact Hn. apply andb_false_r. }
  change (2 ^ 10)%N with 1024%N in Hland.
  rewrite N.mod_small in Hland by exact Hb.
  rewrite <- (N.lxor_lor _ _ Hland). symmetry. apply N.add_nocarry_lxor, Hland.
Qed.

Lemma surrogate_pair (c : N) :
  (65536 <= c <= 1114111)%N ->
  let n := (c - 65536)%N in
  let hi := N.lor 55296 (N.land (N.shiftr n 10) 1023) in
  let lo := N.lor 56320 (N.land n 1023) in
  (55296 <= hi <= 56319)%N /\ (56320 <= lo <= 57343)%N
  /\ (65536 + N.lor (N.shiftl (hi - 55296) 10) (lo - 56320))%N = c.
Proof.
  intros Hc n hi lo. subst hi lo.
  change 1023%N with (N.ones 10). rewrite !N.land_ones, N.shiftr_div_pow2.
  change (2 ^ 10)%N with 1024%N.
  assert (Hq : (n / 1024 < 1024)%N).
  { apply N.Div0.div_lt_upper_bound. subst n. lia. }
  rewrite (N.mod_small (n / 1024)) by exact Hq.
  assert (Hr : (n mod 1024 < 1024)%N) by (apply N.mod_lt; discriminate).
  pose proof (N.div_mod n 1024 ltac:(discriminate)) as Hn.
  generalize dependent (n / 1024)%N. intros q Hq.
  generalize dependent (n mod 1024)%N. intros r Hr Hn.
  change 55296%N with (54 * 1024)%N. change 56320%N with (55 * 1024)%N.
  rewrite !lor_low_bits by assumption.
  rewrite N.shiftl_mul_pow2. change (2 ^ 10)%N with 1024%N.
  replace (54 * 1024 + q - 54 * 1024)%N with q by lia.
  replace (55 * 1024 + r - 55 * 1024)%N with r by lia.
  rewrite lor_low_bits by assumption.
  subst n. lia.
Qed.

(** ** Reading back an escaped string *)

Lemma escape_char_scanned (c : codepoint) (fuel : nat) (r acc : str) :
  scalar c = true ->
  scanstring (S fuel) (escape_char c ++ r) acc = scanstring fuel r (acc ++ [c]).
Proof.
  intros Hc. unfold escape_char.
  repeat (case_decide; [subst c; reflexivity|]).
  destruct ((32 <=? c) && (c <=? 126))%N eqn:Hprint.
  - cbn [app scanstring].
    rewrite !decide_False by assumption.
    apply andb_prop in Hprint as [Hlo _]. apply N.leb_le in Hlo.
    destruct (c <? 32)%N eqn:E; [apply N.ltb_lt in E; lia | reflexivity].
  - destruct (c <? 65536)%N eqn:Hbmp.
    + apply N.ltb_lt in Hbmp.
      destruct (decode_escape_u c r Hbmp) as (a & b & c' & d & -> & Hdec).
      cbn [app scanstring].
      rewrite decide_False by discriminate.
      rewrite decide_True by reflexivity.
      rewrite decide_True by reflexivity.
      rewrite Hdec. cbn [rbind].
      assert (Hhigh : ((55296 <=? c) && (c <=? 56319))%N = false).
      { unfold scalar in Hc. rewrite andb_false_iff, N.leb_gt, N.leb_gt.
        apply orb_prop in Hc as [Hc|Hc].
        - apply N.ltb_lt in Hc. lia.
        - apply andb_prop in Hc as [Hc _]. apply N.ltb_lt in Hc. lia. }
      rewrite Hhigh. reflexivity.
    + apply N.ltb_ge in Hbmp.
      assert (Hmax : (c <= 1114111)%N).
      { unfold scalar in Hc. apply orb_prop in Hc as [Hc|Hc].
        - apply N.ltb_lt in Hc. lia.
        - apply andb_prop in Hc as [_ Hc]. apply N.leb_le in Hc. exact Hc. }
      destruct (surrogate_pair c (conj Hbmp Hmax)) as (Hhi & Hlo & Hpair).
      cbv zeta in Hhi, Hlo, Hpair.
      set (hi := N.lor 55296 (N.land (N.shiftr (c - 65536) 10) 1023)) in *.
      set (lo := N.lor 56320 (N.land (c - 65536) 1023)) in *.
      assert (Hhi' : (hi < 65536)%N) by lia.
      assert (Hlo' : (lo < 65536)%N) by lia.
      rewrite <- app_assoc.
      destruct (decode_escape_u lo r Hlo') as (a2 & b2 & c2 & d2 & -> & Hdec2).
      destruct (decode_escape_u hi ([ch "\"; ch "u"; a2; b2; c2; d2] ++ r) Hhi')
        as (a & b & c' & d & -> & Hdec).
      cbn [app] in Hdec. cbn [app scanstring].
      rewrite decide_False by discriminate.
      rewrite decide_True by reflexivity.
      rewrite decide_True by reflexivity.
      rewrite Hdec. cbn [rbind].
      replace ((55296 <=? hi) && (hi <=? 56319))%N with true
        by (symmetry; apply andb_true_intro; split; apply N.leb_le; lia).
      cbn [strip_prefix]. rewrite !decide_True by reflexivity.
      rewrite Hdec2. cbn [rbind].
      replace ((56320 <=? lo) && (lo <=? 57343))%N with true
        by (symmetry; apply andb_true_intro; split; apply N.leb_le; lia).
      rewrite Hpair. reflexivity.
Qed.

Lemma escape_char_nonempty (c : codepoint) : 1 <= length (escape_char c).
Proof.
  unfold escape_char, escape_u.
  repeat (case_decide; [cbn [length]; lia|]).
  destruct ((32 <=? c) && (c <=? 126))%N; [cbn [length]; lia|].
  destruct (c <? 65536)%N; [cbn [length]; lia|].
  rewrite length_app. cbn [length]. lia.
Qed.

(** The scanner reads an escaped string back, up to the closing quotation
    mark. *)
Lemma scanstring_escaped (s : str) :
  forallb scalar s = true ->
  forall (fuel : nat) (r acc : str),
    length (concat (escape_char <$> s)) < fuel ->
    scanstring fuel (concat (escape_char <$> s) ++ quot :: r) acc = Ok (acc ++ s, r).
Proof.
  induction s as [|c s IH]; intros Hs fuel r acc Hfuel.
  - destruct fuel as [|fuel]; [cbn in Hfuel; lia|].
    cbn [fmap list_fmap concat app scanstring].
    rewrite decide_True by reflexivity. rewrite app_nil_r. reflexivity.
  - cbn [forallb] in Hs. apply andb_prop in Hs as [Hc Hs].
    cbn [fmap list_fmap concat] in *. rewrite length_app in Hfuel.
    pose proof (escape_char_nonempty c) as Hne.
    destruct fuel as [|fuel]; [lia|].
    rewrite <- app_assoc, (escape_char_scanned c fuel _ acc Hc).
    change (list_fmap codepoint str escape_char s) with (escape_char <$> s).
    rewrite IH by (assumption || lia).
    rewrite <- app_assoc. reflexivity.
Qed.

(** ** Reading back what [dumps] wrote *)

Lemma json_text_list_cons (frepr : spec_float -> string) (x : value) (l : list value) :
  json_text frepr (VList (x :: l))
  = ch "[" :: join (lit ", ") (List.map (json_text frepr) (x :: l)) ++ [ch "]"].
Proof. reflexivity. Qed.

Lemma json_text_dict_cons (frepr : spec_float -> string) (kv : str * value)
    (d : list (str * value)) :
  json_text frepr (VDict (kv :: d)) = ch "{" :: members frepr (kv :: d) ++ [ch "}"].
Proof. reflexivity. Qed.

Lemma join_cons (sep p : str) (ps : list str) :
  join sep (p :: ps) = p ++ match ps with
                            | [] => []
                            | _ :: _ => sep ++ join sep ps
                            end.
Proof. destruct ps; cbn [join]; [rewrite app_nil_r|]; reflexivity. Qed.

(** Every text [dumps] writes for a plain value begins with a character
    that begins a value. *)
Lemma json_text_starts (frepr : spec_float -> string) (v : value) :
  plain v = true ->
  exists c t, json_text frepr v = c :: t /\ starts_value c = true.
Proof.
  destruct v as [| [] | z | f | s | [|x l] | [|kv d]]; cbn [plain];
    try discriminate; intros _;
    try (do 2 eexists; split; [reflexivity | reflexivity]).
Qed.

Lemma skip_ws_starts (c : codepoint) (t : str) :
  starts_value c = true -> skip_ws (c :: t) = c :: t.
Proof.
  intros Hc. cbn [skip_ws].
  destruct (is_ws c) eqn:Hws; [|reflexivity].
  unfold starts_value in Hc. rewrite bool_decide_eq_true in Hc.
  unfold is_ws in Hws. rewrite bool_decide_eq_true in Hws.
  exfalso. revert Hws.
  repeat (apply elem_of_cons in Hc as [->|Hc];
          [intros Hws; repeat (apply elem_of_cons in Hws as [Hws|Hws];
                               [discriminate|]);
           apply elem_of_nil in Hws; exact Hws|]).
  apply elem_of_nil in Hc. destruct Hc.
Qed.

Lemma skip_ws_keep (c : codepoint) (t : str) :
  is_ws c = false -> skip_ws (c :: t) = c :: t.
Proof. intros H. cbn [skip_ws]. rewrite H. reflexivity. Qed.

Lemma skip_ws_space (t : str) : skip_ws (ch " " :: t) = skip_ws t.
Proof. reflexivity. Qed.

Lemma skip_ws_json_text (frepr : spec_float -> string) (v : value) (r : str) :
  plain v = true -> skip_ws (json_text frepr v ++ r) = json_text frepr v ++ r.
Proof.
  intros Hv. destruct (json_text_starts frepr v Hv) as (c & t & -> & Hc).
  cbn [app]. apply skip_ws_starts, Hc.
Qed.

Lemma length_join_cons (sep p : str) (ps : list str) :
  length p <= length (join sep (p :: ps))
  /\ (ps <> [] -> length p + length sep + length (join sep ps)
                  = length (join sep (p :: ps))).
Proof.
  rewrite join_cons. destruct ps as [|q ps].
  - rewrite app_nil_r. split; [lia | congruence].
  - rewrite !length_app. split; [lia | intros _; lia].
Qed.

(** The loop of [JSONArray] over the elements [dumps] wrote. *)
Lemma JSONArray_reads (frepr : spec_float -> string) (l : list value) (x : value) :
  Forall (reads_back frepr) (x :: l) ->
  forallb plain (x :: l) = true ->
  forall (limit : N) (fuel : nat) (acc : list value) (r : str),
    2 * length (join (lit ", ") (List.map (json_text frepr) (x :: l))) + 2 <= fuel ->
    JSONArray limit fuel
      (join (lit ", ") (List.map (json_text frepr) (x :: l)) ++ ch "]" :: r) acc
    = Ok (VList (acc ++ x :: l), r).
Proof.
  revert x. induction l as [|y l IH]; intros x Hall Hplain limit fuel acc r Hfuel.
  - apply Forall_cons in Hall as [Hx _].
    cbn [List.map join] in *.
    destruct fuel as [|fuel]; [lia|]. cbn [JSONArray].
    rewrite Hx by lia. cbn [rbind].
    rewrite skip_ws_keep by reflexivity.
    rewrite decide_True by reflexivity. reflexivity.
  - apply Forall_cons in Hall as [Hx Hall].
    cbn [forallb] in Hplain. apply andb_prop in Hplain as [Hpx Hplain].
    cbn [List.map] in *.
    destruct (length_join_cons (lit ", ") (json_text frepr x)
                (json_text frepr y :: List.map (json_text frepr) l)) as [_ Hlen].
    specialize (Hlen ltac:(discriminate)).
    change (length (lit ", ")) with 2 in Hlen.
    rewrite (join_cons _ (json_text frepr x)). rewrite <- !app_assoc.
    destruct fuel as [|fuel]; [lia|]. cbn [JSONArray].
    rewrite Hx by lia. cbn [rbind].
    change (lit ", ") with [ch ","; ch " "]. cbn [app].
    rewrite skip_ws_keep by reflexivity.
    rewrite decide_False by discriminate. rewrite decide_True by reflexivity.
    rewrite skip_ws_space.
    assert (Hskip : forall t,
               skip_ws (join (lit ", ") (json_text frepr y :: List.map (json_text frepr) l) ++ t)
               = join (lit ", ") (json_text frepr y :: List.map (json_text frepr) l) ++ t).
    { intros t. rewrite join_cons, <- app_assoc. apply skip_ws_json_text.
      cbn [forallb] in Hplain. apply andb_prop in Hplain as [Hy _]. exact Hy. }
    rewrite Hskip.
    rewrite (IH y Hall Hplain limit fuel (acc ++ [x]) r) by lia.
    rewrite <- app_assoc. reflexivity.
Qed.

Lemma members_cons (frepr : spec_float -> string) (kv : str * value)
    (d : list (str * value)) :
  members frepr (kv :: d)
  = quot :: member_tail frepr kv
      ++ match d with
         | [] => []
         | _ :: _ => lit ", " ++ members frepr d
         end.
Proof.
  unfold members. cbn [List.map]. rewrite join_cons.
  destruct kv as [k v]. unfold member at 1, member_tail, encode_basestring_ascii.
  cbn [app]. f_equal. rewrite <- !app_assoc. cbn [app].
  destruct d; reflexivity.
Qed.

Lemma length_member_tail (frepr : spec_float -> string) (k : str) (v : value) :
  length (member_tail frepr (k, v))
  = length (concat (escape_char <$> k)) + 3 + length (json_text frepr v).
Proof.
  unfold member_tail. rewrite length_app. cbn [length]. rewrite length_app.
  change (length (lit ": ")) with 2. lia.
Qed.

(** The loop of [JSONObject] over the members [dumps] wrote. *)
Lemma JSONObject_reads (frepr : spec_float -> string) (d : list (str * value))
    (kv : str * value) :
  Forall (fun kv => reads_back frepr kv.2) (kv :: d) ->
  forallb (fun kv : str * value =>
             let (k, x) := kv in forallb scalar k && plain x) (kv :: d) = true ->
  forall (limit : N) (fuel : nat) (acc : list (str * value)) (r : str),
    2 * length (members frepr (kv :: d)) + 2 <= fuel ->
    JSONObject limit fuel
      (member_tail frepr kv
         ++ match d with
            | [] => []
            | _ :: _ => lit ", " ++ members frepr d
            end ++ ch "}" :: r) acc
    = Ok (VDict (dict_of_pairs (acc ++ kv :: d)), r).
Proof.
  revert kv. induction d as [|kv' d IH]; intros [k v] Hall Hplain limit fuel acc r Hfuel;
    apply Forall_cons in Hall as [Hv Hall]; cbn [snd] in Hv;
    cbn [forallb] in Hplain; apply andb_prop in Hplain as [Hkv Hplain];
    apply andb_prop in Hkv as [Hk Hpv];
    rewrite members_cons, length_cons, length_app, length_member_tail in Hfuel;
    (destruct fuel as [|fuel]; [lia|]);
    unfold member_tail; rewrite <- !app_assoc; cbn [app JSONObject];
    (rewrite scanstring_escaped by (try assumption; rewrite length_app; cbn [length]; lia));
    cbn [rbind app];
    change (lit ": ") with [ch ":"; ch " "]; cbn [app];
    rewrite skip_ws_keep by reflexivity;
    rewrite decide_True by reflexivity;
    rewrite skip_ws_space, skip_ws_json_text by assumption;
    (rewrite Hv by lia); cbn [rbind].
  - rewrite skip_ws_keep by reflexivity.
    rewrite decide_True by reflexivity. reflexivity.
  - change (lit ", ") with [ch ","; ch " "] in Hfuel |- *. cbn [app length] in Hfuel. cbn [app].
    rewrite skip_ws_keep by reflexivity.
    rewrite decide_False by discriminate. rewrite decide_True by reflexivity.
    rewrite members_cons. cbn [app].
    rewrite skip_ws_space, skip_ws_keep by reflexivity.
    rewrite decide_True by reflexivity.
    rewrite <- app_assoc.
    rewrite (IH kv' Hall Hplain limit fuel (acc ++ [(k, v)]) r) by lia.
    rewrite <- app_assoc. reflexivity.
Qed.

(** A list of pairs with distinct keys is the dictionary [dict] makes of
    it. *)
Lemma dict_set_fresh (d : list (str * value)) (k : str) (v : value) :
  k ∉ fst <$> d -> dict_set d k v = d ++ [(k, v)].
Proof.
  induction d as [|[k' v'] d IH]; intros Hk; cbn [dict_set app]; [reflexivity|].
  cbn [fmap list_fmap fst] in Hk. apply not_elem_of_cons in Hk as [Hne Hk].
  rewrite decide_False by congruence. rewrite (IH Hk). reflexivity.
Qed.

Lemma dict_of_pairs_NoDup (d : list (str * value)) :
  NoDup (fst <$> d) -> dict_of_pairs d = d.
Proof.
  unfold dict_of_pairs.
  assert (H : forall acc, NoDup (fst <$> (acc ++ d)) ->
                          foldl (fun d kv => dict_set d kv.1 kv.2) acc d = acc ++ d).
  { induction d as [|[k v] d IH]; intros acc Hnd; cbn [foldl].
    - rewrite app_nil_r. reflexivity.
    - cbn [fst snd]. rewrite dict_set_fresh.
      + rewrite IH; rewrite <- app_assoc; [reflexivity | exact Hnd].
      + rewrite fmap_app in Hnd. apply NoDup_app in Hnd as (_ & Hdis & _).
        intros Hin. apply (Hdis k Hin). cbn [fmap list_fmap fst]. left. }
  intros Hnd. apply (H [] Hnd).
Qed.

(** [json.loads] reads back every plain value from the text [json.dumps]
    wrote for it. *)
Lemma scan_json_text (frepr : spec_float -> string) (v : value) :
  plain v = true -> reads_back frepr v.
Proof.
  induction v as [| b | z | f | s | l IH | d IH] using value_nested_ind;
    cbn [plain]; intros Hp limit fuel r Hfuel; try discriminate.
  - destruct fuel as [|fuel]; [cbn in Hfuel; lia | reflexivity].
  - destruct fuel as [|fuel]; [cbn in Hfuel; lia | destruct b; reflexivity].
  - destruct fuel as [|fuel]; [cbn in Hfuel; lia|].
    cbn [json_text]. unfold encode_basestring_ascii. cbn [app scan_once].
    rewrite decide_True by reflexivity. rewrite <- app_assoc. cbn [app].
    rewrite scanstring_escaped by (try assumption; rewrite length_app; cbn [length]; lia).
    reflexivity.
  - destruct l as [|x l].
    + destruct fuel as [|fuel]; [cbn in Hfuel; lia | reflexivity].
    + assert (Hall : Forall (reads_back frepr) (x :: l)).
      { clear Hfuel. revert Hp. induction IH as [|y l' Hy _ IH']; intros Hp;
          constructor; cbn [forallb] in Hp; apply andb_prop in Hp as [Hpy Hp]; auto. }
      rewrite json_text_list_cons in *. cbn [length] in Hfuel.
      rewrite length_app in Hfuel. cbn [length] in Hfuel.
      destruct fuel as [|fuel]; [lia|].
      cbn [app scan_once]. rewrite <- app_assoc. cbn [app].
      rewrite decide_False by discriminate. rewrite decide_False by discriminate.
      rewrite decide_True by reflexivity.
      set (body := join (lit ", ") (List.map (json_text frepr) (x :: l)) ++ ch "]" :: r).
      assert (Hb : exists c t, body = c :: t /\ starts_value c = true).
      { subst body. cbn [List.map]. rewrite join_cons, <- app_assoc.
        cbn [forallb] in Hp. apply andb_prop in Hp as [Hpx _].
        destruct (json_text_starts frepr x Hpx) as (c & t & -> & Hc).
        cbn [app]. eauto. }
      destruct Hb as (c & t & Hb & Hc). rewrite Hb.
      rewrite skip_ws_starts by exact Hc.
      rewrite decide_False
        by (intros ->; vm_compute in Hc; discriminate).
      rewrite <- Hb. subst body.
      rewrite (JSONArray_reads frepr l x Hall Hp limit fuel [] r) by lia.
      reflexivity.
  - destruct d as [|kv d].
    + destruct fuel as [|fuel]; [cbn in Hfuel; lia | reflexivity].
    + apply andb_prop in Hp as [Hp Hnd]. apply bool_decide_eq_true in Hnd.
      assert (Hall : Forall (fun kv => reads_back frepr kv.2) (kv :: d)).
      { clear Hfuel Hnd. revert Hp. induction IH as [|[k y] d' Hy _ IH']; intros Hp;
          constructor; cbn [forallb] in Hp; apply andb_prop in Hp as [Hpy Hp];
          [apply andb_prop in Hpy as [_ Hpy]|]; auto. }
      rewrite json_text_dict_cons in *. cbn [length] in Hfuel.
      rewrite length_app in Hfuel. cbn [length] in Hfuel.
      destruct fuel as [|fuel]; [lia|].
      rewrite members_cons.
      cbn [app scan_once]. rewrite <- !app_assoc. cbn [app].
      rewrite decide_False by discriminate. rewrite decide_True by reflexivity.
      rewrite skip_ws_keep by reflexivity.
      rewrite decide_False by discriminate. rewrite decide_True by reflexivity.
      rewrite (JSONObject_reads frepr d kv Hall Hp limit fuel [] r) by lia.
      cbn [app]. rewrite dict_of_pairs_NoDup by exact Hnd. reflexivity.
Qed.

Lemma loads_json_text (frepr : spec_float -> string) (limit : N) (v : value) :
  plain v = true -> loads limit (json_text frepr v) = Ok v.
Proof.
  intros Hp. unfold loads.
  destruct (json_text_starts frepr v Hp) as (c & t & Hd & Hc).
  assert (Hbom : strip_prefix [65279%N] (json_text frepr v) = None).
  { rewrite Hd. cbn [strip_prefix].
    rewrite decide_False; [reflexivity|].
    intros <-. vm_compute in Hc. discriminate. }
  rewrite Hbom.
  rewrite <- (app_nil_r (json_text frepr v)) at 2.
  rewrite skip_ws_json_text by exact Hp.
  rewrite (scan_json_text frepr v Hp) by lia. reflexivity.
Qed.

(** The text [json.dumps] writes for a plain value is ASCII. *)
Lemma join_ascii (sep : str) (parts : list str) :
  Forall (fun c => (c < 128)%N) sep ->
  Forall (Forall (fun c => (c < 128)%N)) parts ->
  Forall (fun c => (c < 128)%N) (join sep parts).
Proof.
  intros Hsep. induction 1 as [|p ps Hp Hps IH]; [constructor|].
  rewrite join_cons. apply Forall_app; split; [exact Hp|].
  destruct ps as [|q ps]; [constructor|].
  apply Forall_app; split; [exact Hsep | exact IH].
Qed.

Lemma json_text_plain_ascii (frepr : spec_float -> string) (v : value) :
  plain v = true -> Forall (fun c => (c < 128)%N) (json_text frepr v).
Proof.
  induction v as [| b | z | f | s | l IH | d IH] using value_nested_ind;
    cbn [plain]; intros Hp; try discriminate.
  - apply ascii_check. reflexivity.
  - destruct b; apply ascii_check; reflexivity.
  - apply encode_basestring_ascii_lt.
  - destruct l as [|x l]; [apply ascii_check; reflexivity|].
    rewrite json_text_list_cons. constructor; [reflexivity|].
    apply Forall_app; split; [|repeat constructor].
    apply join_ascii; [apply ascii_check; reflexivity|].
    revert Hp. induction IH as [|y l' Hy _ IH']; intros Hp; cbn [List.map];
      constructor; cbn [forallb] in Hp; apply andb_prop in Hp as [Hpy Hp]; auto.
  - destruct d as [|kv d]; [apply ascii_check; reflexivity|].
    apply andb_prop in Hp as [Hp _].
    rewrite json_text_dict_cons. constructor; [reflexivity|].
    apply Forall_app; split; [|repeat constructor].
    apply join_ascii; [apply ascii_check; reflexivity|].
    revert Hp. induction IH as [|[k y] d' Hy _ IH']; intros Hp; cbn [List.map];
      constructor; cbn [forallb] in Hp; apply andb_prop in Hp as [Hpy Hp];
      [apply andb_prop in Hpy as [_ Hpy]|]; auto.
    cbn [member]. apply Forall_app; split; [apply encode_basestring_ascii_lt|].
    apply Forall_app; split; [apply ascii_check; reflexivity | auto].
Qed.

(** A plain value holds no integer: [json.dumps] writes its text, whatever
    the limit. *)
Lemma plain_within_limit (limit : N) (v : value) :
  plain v = true -> within_limit limit v = true.
Proof.
  induction v as [| b | z | f | s | l IH | d IH] using value_nested_ind;
    cbn [plain within_limit]; intros Hp; try reflexivity; try discriminate.
  - revert Hp. induction IH as [|y l' Hy _ IH']; intros Hp; [reflexivity|].
    cbn [forallb] in *. apply andb_prop in Hp as [Hpy Hp].
    rewrite (Hy Hpy), (IH' Hp). reflexivity.
  - apply andb_prop in Hp as [Hp _].
    revert Hp. induction IH as [|[k y] d' Hy _ IH']; intros Hp; [reflexivity|].
    cbn [forallb snd] in *. apply andb_prop in Hp as [Hpy Hp].
    apply andb_prop in Hpy as [_ Hpy].
    rewrite (Hy Hpy), (IH' Hp). reflexivity.
Qed.

Lemma dumps_plain (frepr : spec_float -> string) (limit : N) (v : value) :
  plain v = true -> dumps frepr limit v = Ok (json_text frepr v).
Proof.
  intros Hp. rewrite dumps_json_text, (plain_within_limit limit v Hp). reflexivity.
Qed.

(** [json.loads] reads back what [json.dumps] wrote for a plain value. *)
Lemma loads_dumps (frepr : spec_float -> string) (limit limit' : N) (v : value) :
  plain v = true ->
  (let! text := dumps frepr limit v in loads limit' text) = Ok v.
Proof.
  intros Hp. rewrite (dumps_plain frepr limit v Hp). cbn [rbind].
  apply loads_json_text, Hp.
Qed.

(** ** The request, read back *)

Lemma requestString_plain (env : Env) (limit : N) (o : value) :
  plain o = true -> read_back limit (requestString env o) = Ok o.
Proof.
  intros Hp. pose proof (json_text_plain_ascii (float_repr env) o Hp) as Hascii.
  pose proof (requestString_ok env o _ (dumps_plain _ _ o Hp)) as Hq.
  unfold urlencode, quote in Hq.
  rewrite (utf8_encode_ascii _ Hascii) in Hq. cbn [rbind] in Hq.
  injection Hq as <-. unfold read_back, unquote.
  rewrite (unquote_to_bytes_quote _ Hascii). cbn [rbind].
  rewrite (utf8_decode_ascii _ Hascii). cbn [rbind].
  apply loads_json_text, Hp.
Qed.

Lemma mastQuery_bodies (env : Env) (request : nat) (w : World) :
  bodies_since w (mastQuery env request w).2
  = if within_limit (int_max_str_digits env) (object_at w request)
    then [lit "request=" ++ requestString env (object_at w request)]
    else [].
Proof.
  unfold bodies_since. rewrite mastQuery_run.
  destruct (within_limit (int_max_str_digits env) (object_at w request)) eqn:Hlimit.
  - destruct (mastQuery_outcome_world env (object_at w request) w Hlimit)
      as (is_open & pending & evs & -> & Hevs).
    rewrite events_since_after_query.
    change (requests_of (EvRequest ?c ?rq :: evs)) with ((c, rq) :: requests_of evs).
    rewrite Hevs. reflexivity.
  - rewrite (mastQuery_outcome_refused env _ w Hlimit). cbn [snd].
    rewrite events_since_refl. reflexivity.
Qed.








(** X11.  Quoting loses nothing: for every request object built from
    [None], booleans, strings of Unicode scalar values, lists and
    dictionaries with distinct string keys, unquoting the body [mastQuery]
    sends and parsing the text as JSON, under whatever limit on digits,
    gives back the object itself. *)
Theorem mastQuery_request_reads_back (env : Env) (request : nat) (w : World) :
  plain (object_at w request) = true ->
  exists q,
    bodies_since w (mastQuery env request w).2 = [lit "request=" ++ q]
    /\ forall limit : N, read_back limit q = Ok (object_at w request).
Proof.
  intros Hp. exists (requestString env (object_at w request)). split.
  - rewrite mastQuery_bodies, (plain_within_limit _ _ Hp). reflexivity.
  - intros limit. apply requestString_plain, Hp.
Qed.

Lemma mastQuery_request_reads_back_witness :
  exists q,
    bodies_since request_world (mastQuery (stub []) 0 request_world).2
    = [lit "request=" ++ q]
    /\ forall limit : N, read_back limit q = Ok (object_at request_world 0).
Proof.
  apply (mastQuery_request_reads_back (stub []) 0 request_world).
  vm_compute. reflexivity.
Defined.

(** ** The name in the request *)

Lemma plain_resolverRequest (name : str) :
  forallb scalar name = true -> plain (resolverRequest name) = true.
Proof.
  intros H. unfold resolverRequest. cbn [plain forallb]. rewrite H.
  vm_compute. reflexivity.
Qed.

Lemma resolve_bodies (env : Env) (name : str) (w : World) :
  bodies_since w (resolve env name w).2
  = [lit "request=" ++ requestString env (resolverRequest name)].
Proof. unfold bodies_since. rewrite resolve_requests. reflexivity. Qed.

Lemma input_of_requestString (env : Env) (limit : N) (name : str) :
  forallb scalar name = true ->
  input_of limit (requestString env (resolverRequest name)) = Ok (VStr name).
Proof.
  intros H. unfold input_of.
  rewrite (requestString_plain env limit _ (plain_resolverRequest name H)).
  reflexivity.
Qed.

(** X12.  The name reaches the service as given: for every name made of
    Unicode scalar values, whatever characters it holds (quotation marks,
    backslashes, control characters, characters beyond the Basic
    Multilingual Plane), the field [params.input] of the request [resolve]
    sends, unquoted and parsed, is the name. *)
Theorem resolve_name_reads_back (env : Env) (name : str) (w : World) :
  forallb scalar name = true ->
  exists q,
    bodies_since w (resolve env name w).2 = [lit "request=" ++ q]
    /\ forall limit : N, input_of limit q = Ok (VStr name).
Proof.
  intros H. exists (requestString env (resolverRequest name)). split.
  - apply resolve_bodies.
  - intros limit. apply input_of_requestString, H.
Qed.

Lemma resolve_name_reads_back_witness :
  exists q,
    bodies_since empty_world
      (resolve (stub []) (qlit "a'b\c" ++ [9%N; 233%N; 128512%N]) empty_world).2
    = [lit "request=" ++ q]
    /\ forall limit : N,
        input_of limit q = Ok (VStr (qlit "a'b\c" ++ [9%N; 233%N; 128512%N])).
Proof.
  apply (resolve_name_reads_back (stub []) (qlit "a'b\c" ++ [9%N; 233%N; 128512%N])
           empty_world).
  vm_compute. reflexivity.
Defined.

(** X13.  Different names give different requests, as long as the names
    are made of Unicode scalar values; a surrogate pair and the character
    it stands for, two different [str] values, give the same request. *)
Theorem resolve_names_distinguished :
  (forall (env : Env) (name name' : str),
      forallb scalar name = true ->
      forallb scalar name' = true ->
      name <> name' ->
      rq_body (lookup_request env name) <> rq_body (lookup_request env name'))
  /\ pair_name <> astral_name
  /\ (forall env : Env, lookup_request env pair_name = lookup_request env astral_name).
Proof.
  split; [|split].
  - intros env name name' H H' Hne Hbody.
    unfold lookup_request, mast_request in Hbody. cbn [rq_body] in Hbody.
    apply app_inv_head in Hbody.
    pose proof (input_of_requestString env 0 name H) as Hin.
    rewrite Hbody, (input_of_requestString env 0 name' H') in Hin.
    congruence.
  - discriminate.
  - intros env. reflexivity.
Qed.

Lemma resolve_names_distinguished_witness :
  rq_body (lookup_request (stub []) (lit "M 31"))
  <> rq_body (lookup_request (stub []) (lit "M 32")).
Proof.
  apply (proj1 resolve_names_distinguished (stub []) (lit "M 31") (lit "M 32"));
    [vm_compute; reflexivity | vm_compute; reflexivity | discriminate].
Defined.
